(** * Badminton Matcher: a shallow embedding of [src/App.tsx]

    The component owns all of its state in React hooks.  The embedding
    keeps that state in one record, [State], and turns every action of the
    component ([addPlayer], [removePlayer], [toggleLeave], [endDay],
    [generateMatches], the court-count handler, [loadState]) into a
    function on it.

    [Player] values are JavaScript objects: the roster array, the sorted
    copy made by [generateMatches] and the teams of a [Match] all hold
    references to the same objects, and [generateMatches] increments
    [gamesPlayed] in place.  The embedding therefore keeps the objects in
    a store ([heap], indexed by location) and lets arrays hold
    locations. *)

From Stdlib Require Import ZArith Lia String DecimalString DecimalPos DecimalZ.
From stdpp Require Import base numbers list list_numbers sorting.

Local Open Scope Z_scope.

(** ** JavaScript strings

    A JavaScript string is a sequence of UTF-16 code units. *)

Definition jsstring := list N.

(** The code units of an ASCII literal. *)
Definition lit (s : String.string) : jsstring :=
  map Ascii.N_of_ascii (String.list_ascii_of_string s).

Arguments lit s%_string.

(** [Number.prototype.toString] on an integer value (plain decimal
    digits, a leading minus sign when negative).  This is the text
    JavaScript gives for integers below 10^21 in absolute value, such as
    clock readings and court indices; from 10^21 on it writes an
    exponent, which is not modelled. *)
Definition toString (z : Z) : jsstring :=
  lit (NilZero.string_of_int (Z.to_int z)).

(** ECMAScript [WhiteSpace] and [LineTerminator] code points, the
    characters removed by [String.prototype.trim] and skipped by
    [parseInt]. *)
Definition isWhiteSpace (c : N) : bool :=
  (  (c =? 9) || (c =? 10) || (c =? 11) || (c =? 12) || (c =? 13)
  || (c =? 32) || (c =? 160) || (c =? 5760)
  || ((8192 <=? c) && (c <=? 8202))
  || (c =? 8232) || (c =? 8233) || (c =? 8239) || (c =? 8287)
  || (c =? 12288) || (c =? 65279))%N.

Fixpoint trimStart (s : jsstring) : jsstring :=
  match s with
  | c :: s' => if isWhiteSpace c then trimStart s' else s
  | [] => []
  end.

Definition trimEnd (s : jsstring) : jsstring := rev (trimStart (rev s)).

Definition trim (s : jsstring) : jsstring := trimEnd (trimStart s).

(** Truthiness of a string: every string but the empty one. *)
Definition truthy_string (s : jsstring) : bool :=
  match s with [] => false | _ => true end.

(** ** Data model *)

Inductive SkillLevel := beginner | intermediate | pro_player.

Inductive PlayingType := single | double.

Record Player := mkPlayer {
  player_id : jsstring;
  name : jsstring;
  skill : SkillLevel;
  gamesPlayed : Z;
  isOnLeave : bool
}.

(** A reference to a [Player] object. *)
Definition loc := nat.

Record Match := mkMatch {
  match_id : jsstring;
  court : Z;
  team1 : list loc;
  team2 : list loc;
  round : Z
}.

Record MatchHistory := mkMatchHistory {
  history_round : Z;
  matches : list Match;
  timestamp : Z
}.

(** The hooks of [App], and the store of [Player] objects they refer to. *)
Record State := mkState {
  heap : list Player;
  players : list loc;
  playerName : jsstring;
  playerSkill : SkillLevel;
  courts : Z;
  playingType : PlayingType;
  currentMatches : list Match;
  history : list MatchHistory;
  roundNumber : Z;
  showHistory : bool;
  advancedMode : bool
}.

#[global] Instance SkillLevel_eq_dec : EqDecision SkillLevel.
Proof. solve_decision. Defined.

#[global] Instance PlayingType_eq_dec : EqDecision PlayingType.
Proof. solve_decision. Defined.

#[global] Instance Player_inhabited : Inhabited Player :=
  populate (mkPlayer [] [] intermediate 0 false).

(** Reading an object through a reference. *)
Definition deref (h : list Player) (l : loc) : Player := h !!! l.

(** ** Array helpers *)

(** [Array.prototype.slice(start, end)], negative indices counting from
    the end of the array. *)
Definition slice {A} (l : list A) (start end_ : Z) : list A :=
  let len := Z.of_nat (length l) in
  let k := if start <? 0 then Z.max (len + start) 0 else Z.min start len in
  let final := if end_ <? 0 then Z.max (len + end_) 0 else Z.min end_ len in
  take (Z.to_nat (final - k)) (drop (Z.to_nat k) l).

(** [Array.prototype.sort(cmp)].  The language requires the sort to be
    stable, and for a consistent comparator the outcome is then fully
    determined; it is computed here by stable insertion. *)
Section Sort.
Context {A : Type} (cmp : A -> A -> Z).

Fixpoint sort_insert (x : A) (l : list A) : list A :=
    match l with
    | [] => [x]
    | y :: l' => if 0 <? cmp x y then y :: sort_insert x l' else x :: l
    end.

Fixpoint sort (l : list A) : list A :=
    match l with
    | [] => []
    | x :: l' => sort_insert x (sort l')
    end.
End Sort.

(** ** The pairing algorithm *)

Definition skillOrder (s : SkillLevel) : Z :=
  match s with beginner => 0 | intermediate => 1 | pro_player => 2 end.

(** The comparator passed to [sort] in [generateMatches]. *)
Definition comparePlayers (a b : Player) : Z :=
  if negb (gamesPlayed a =? gamesPlayed b)
  then gamesPlayed a - gamesPlayed b
  else skillOrder (skill a) - skillOrder (skill b).

Definition playersPerMatch (t : PlayingType) : Z :=
  match t with single => 2 | double => 4 end.

Definition activePlayers (st : State) : list loc :=
  filter (fun p => isOnLeave (deref (heap st) p) = false) (players st).

Definition sortedPlayers (st : State) : list loc :=
  sort (fun a b => comparePlayers (deref (heap st) a) (deref (heap st) b))
       (activePlayers st).

Definition availablePlayers (st : State) : list loc :=
  slice (sortedPlayers st) 0 (courts st * playersPerMatch (playingType st)).

(** [player.gamesPlayed++].  Counts are whole numbers in the range that
    a JavaScript number holds exactly (below 2^53), where [++] adds 1. *)
Definition incGamesPlayed (p : Player) : Player :=
  mkPlayer (player_id p) (name p) (skill p) (gamesPlayed p + 1) (isOnLeave p).

(** [matchPlayers.forEach(player => { player.gamesPlayed++ })] *)
Definition incAll (h : list Player) (ps : list loc) : list Player :=
  foldl (fun h p => alter incGamesPlayed p h) h ps.

(** The [Match] literal built for court index [i]. *)
Definition makeMatch (now : Z) (t : PlayingType) (rn : Z) (i : Z)
    (matchPlayers : list loc) : Match :=
  {| match_id := toString now ++ lit "-" ++ toString i;
     court := i + 1;
     team1 := match t with
              | single => [matchPlayers !!! 0%nat]
              | double => [matchPlayers !!! 0%nat; matchPlayers !!! 1%nat]
              end;
     team2 := match t with
              | single => [matchPlayers !!! 1%nat]
              | double => [matchPlayers !!! 2%nat; matchPlayers !!! 3%nat]
              end;
     round := rn |}.

(** One iteration of the loop over the courts; [acc] holds the [matches]
    array built so far and the store. *)
Definition courtStep (now : Z -> Z) (t : PlayingType) (rn : Z)
    (available : list loc) (acc : list Match * list Player) (i : Z)
    : list Match * list Player :=
  let matchPlayers :=
    slice available (i * playersPerMatch t) ((i + 1) * playersPerMatch t) in
  if Z.of_nat (length matchPlayers) =? playersPerMatch t
  then (acc.1 ++ [makeMatch (now i) t rn i matchPlayers],
        incAll acc.2 matchPlayers)
  else acc.

(** [for (let i = 0; i < courts; i++) ...] *)
Definition courtLoop (now : Z -> Z) (st : State) : list Match * list Player :=
  foldl (courtStep now (playingType st) (roundNumber st) (availablePlayers st))
        ([], heap st) (seqZ 0 (courts st)).

Definition alertMessage (t : PlayingType) : jsstring :=
  lit "Need at least " ++ toString (match t with single => 2 | double => 4 end)
      ++ lit " active players!".

(** The validation at the head of [generateMatches]. *)
Definition tooFewPlayers (st : State) : bool :=
  Z.of_nat (length (activePlayers st))
  <? (match playingType st with single => 2 | double => 4 end).

(** [generateMatches].  [now i] is the reading of [Date.now()] in
    iteration [i] of the loop, [stamp] the value of [new Date()].  The
    second component is the text passed to [alert], if any. *)
Definition generateMatches (now : Z -> Z) (stamp : Z) (st : State)
    : State * option jsstring :=
  if tooFewPlayers st then (st, Some (alertMessage (playingType st)))
  else
    let r := courtLoop now st in
    let historyEntry := mkMatchHistory (roundNumber st) r.1 stamp in
    ({| heap := r.2;
        players := players st;
        playerName := playerName st;
        playerSkill := playerSkill st;
        courts := courts st;
        playingType := playingType st;
        currentMatches := r.1;
        history := historyEntry :: history st;
        roundNumber := roundNumber st + 1;
        showHistory := showHistory st;
        advancedMode := advancedMode st |}, None).

(** ** Roster actions *)

(** [addPlayer]; [now] is the reading of [Date.now()].  The new object is
    allocated at the end of the store. *)
Definition addPlayer (now : Z) (st : State) : State :=
  if truthy_string (trim (playerName st)) then
    let newPlayer :=
      {| player_id := toString now;
         name := trim (playerName st);
         skill := if advancedMode st then playerSkill st else intermediate;
         gamesPlayed := 0;
         isOnLeave := false |} in
    {| heap := heap st ++ [newPlayer];
       players := players st ++ [length (heap st)];
       playerName := [];
       playerSkill := playerSkill st;
       courts := courts st;
       playingType := playingType st;
       currentMatches := currentMatches st;
       history := history st;
       roundNumber := roundNumber st;
       showHistory := showHistory st;
       advancedMode := advancedMode st |}
  else st.

(** [removePlayer]: the roster array is filtered, no object is touched. *)
Definition removePlayer (id : jsstring) (st : State) : State :=
  {| heap := heap st;
     players := filter (fun p => player_id (deref (heap st) p) <> id)
                       (players st);
     playerName := playerName st;
     playerSkill := playerSkill st;
     courts := courts st;
     playingType := playingType st;
     currentMatches := currentMatches st;
     history := history st;
     roundNumber := roundNumber st;
     showHistory := showHistory st;
     advancedMode := advancedMode st |}.

(** [{ ...p, isOnLeave: !p.isOnLeave }] *)
Definition flipLeave (p : Player) : Player :=
  mkPlayer (player_id p) (name p) (skill p) (gamesPlayed p)
           (negb (isOnLeave p)).

(** The callback of the [map] in [toggleLeave]: a matching player is
    replaced by a fresh object, any other keeps its reference.  [acc]
    holds the array built so far and the store. *)
Definition toggleStep (id : jsstring) (acc : list loc * list Player)
    (p : loc) : list loc * list Player :=
  if decide (player_id (deref acc.2 p) = id)
  then (acc.1 ++ [length acc.2], acc.2 ++ [flipLeave (deref acc.2 p)])
  else (acc.1 ++ [p], acc.2).

Definition toggleLeave (id : jsstring) (st : State) : State :=
  let r := foldl (toggleStep id) ([], heap st) (players st) in
  {| heap := r.2;
     players := r.1;
     playerName := playerName st;
     playerSkill := playerSkill st;
     courts := courts st;
     playingType := playingType st;
     currentMatches := currentMatches st;
     history := history st;
     roundNumber := roundNumber st;
     showHistory := showHistory st;
     advancedMode := advancedMode st |}.

(** [endDay]; [confirmed] is the answer to [window.confirm]. *)
Definition endDay (confirmed : bool) (st : State) : State :=
  if confirmed then
    {| heap := heap st;
       players := [];
       playerName := playerName st;
       playerSkill := playerSkill st;
       courts := 1;
       playingType := double;
       currentMatches := [];
       history := [];
       roundNumber := 1;
       showHistory := showHistory st;
       advancedMode := false |}
  else st.

(** [setAdvancedMode(!advancedMode)] *)
Definition toggleAdvancedMode (st : State) : State :=
  {| heap := heap st;
     players := players st;
     playerName := playerName st;
     playerSkill := playerSkill st;
     courts := courts st;
     playingType := playingType st;
     currentMatches := currentMatches st;
     history := history st;
     roundNumber := roundNumber st;
     showHistory := showHistory st;
     advancedMode := negb (advancedMode st) |}.

(** [setPlayingType], [setPlayerName] and [setPlayerSkill], the handlers
    of the format buttons, the name field and the skill selector. *)
Definition setPlayingType (t : PlayingType) (st : State) : State :=
  {| heap := heap st;
     players := players st;
     playerName := playerName st;
     playerSkill := playerSkill st;
     courts := courts st;
     playingType := t;
     currentMatches := currentMatches st;
     history := history st;
     roundNumber := roundNumber st;
     showHistory := showHistory st;
     advancedMode := advancedMode st |}.

Definition setPlayerName (v : jsstring) (st : State) : State :=
  {| heap := heap st;
     players := players st;
     playerName := v;
     playerSkill := playerSkill st;
     courts := courts st;
     playingType := playingType st;
     currentMatches := currentMatches st;
     history := history st;
     roundNumber := roundNumber st;
     showHistory := showHistory st;
     advancedMode := advancedMode st |}.

Definition setPlayerSkill (v : SkillLevel) (st : State) : State :=
  {| heap := heap st;
     players := players st;
     playerName := playerName st;
     playerSkill := v;
     courts := courts st;
     playingType := playingType st;
     currentMatches := currentMatches st;
     history := history st;
     roundNumber := roundNumber st;
     showHistory := showHistory st;
     advancedMode := advancedMode st |}.

(** ** The court-count field *)

(** The value of a code unit as a digit (0-9, a-z, A-Z). *)
Definition digitValue (c : N) : option Z :=
  if ((48 <=? c) && (c <=? 57))%N then Some (Z.of_N c - 48)
  else if ((97 <=? c) && (c <=? 122))%N then Some (Z.of_N c - 87)
  else if ((65 <=? c) && (c <=? 90))%N then Some (Z.of_N c - 55)
  else None.

(** The longest prefix of radix-[R] digits, as an integer; [acc] is the
    value read so far, [None] while no digit has been read. *)
Fixpoint parseDigits (R : Z) (acc : option Z) (s : jsstring) : option Z :=
  match s with
  | c :: s' =>
      match digitValue c with
      | Some d =>
          if d <? R then parseDigits R (Some (default 0 acc * R + d)) s'
          else acc
      | None => acc
      end
  | [] => acc
  end.

(** [parseInt(s)] without a radix: leading white space is skipped, a sign
    is read, a [0x] prefix switches to radix 16, and the longest run of
    digits is the value.  [None] stands for [NaN].  A number holds the
    integer rounded to a double, which keeps its sign and whether it is
    zero; the integer itself is kept here, so the value is that of the
    code for integers below 2^53 in absolute value. *)
Definition parseInt (s : jsstring) : option Z :=
  let inputS := trimStart s in
  let sign :=
    match inputS with
    | c :: _ => if (c =? 45)%N then -1 else 1
    | [] => 1
    end in
  let unsigned :=
    match inputS with
    | c :: rest => if ((c =? 45) || (c =? 43))%N then rest else inputS
    | [] => inputS
    end in
  let hex :=
    match unsigned with
    | c :: x :: _ => ((c =? 48) && ((x =? 120) || (x =? 88)))%N
    | _ => false
    end in
  let R := if hex then 16 else 10 in
  let digits := if hex then drop 2 unsigned else unsigned in
  Z.mul sign <$> parseDigits R None digits.

(** [parseInt(e.target.value) || 1]: [NaN] and zero are falsy. *)
Definition courtsOfInput (v : jsstring) : Z :=
  match parseInt v with
  | Some z => if z =? 0 then 1 else z
  | None => 1
  end.

(** The [onChange] handler of the court-count field. *)
Definition changeCourts (v : jsstring) (st : State) : State :=
  {| heap := heap st;
     players := players st;
     playerName := playerName st;
     playerSkill := playerSkill st;
     courts := courtsOfInput v;
     playingType := playingType st;
     currentMatches := currentMatches st;
     history := history st;
     roundNumber := roundNumber st;
     showHistory := showHistory st;
     advancedMode := advancedMode st |}.

(** ** Persisted state

    [loadState] works on whatever [JSON.parse] returns, so its model works
    on untyped values. *)

(** Number values: a finite number is kept as a fraction. *)
Inductive number :=
  | NaN
  | Infinity (negative : bool)
  | Finite (num : Z) (den : positive).

(** Values: what [JSON.parse] can return ([null], booleans, numbers,
    strings, arrays, objects with their properties in order), together
    with [undefined] and the [Date] objects that [loadState] builds;
    [VDate v] is [new Date(v)]. *)
#[local] Unset Elimination Schemes.
Inductive value :=
  | VUndefined
  | VNull
  | VBoolean (b : bool)
  | VNumber (n : number)
  | VString (s : jsstring)
  | VArray (elems : list value)
  | VObject (props : list (jsstring * value))
  | VDate (arg : value).
#[local] Set Elimination Schemes.

(** The object [loadState] returns.  Its fields are typed in the source,
    but nothing checks what [parsed] holds, so they are values here. *)
Record SavedState := mkSavedState {
  saved_players : value;
  saved_history : value;
  saved_roundNumber : value;
  saved_courts : value;
  saved_playingType : value;
  saved_advancedMode : value
}.

(** Truthiness, as [||] tests it. *)
Definition truthy (v : value) : bool :=
  match v with
  | VUndefined | VNull => false
  | VBoolean b => b
  | VNumber NaN => false
  | VNumber (Infinity _) => true
  | VNumber (Finite num _) => negb (num =? 0)
  | VString s => truthy_string s
  | VArray _ | VObject _ | VDate _ => true
  end.

(** [v || d] *)
Definition orElse (v d : value) : value := if truthy v then v else d.

Fixpoint lookupProp (key : jsstring) (props : list (jsstring * value))
    : option value :=
  match props with
  | (k, v) :: props' => if decide (k = key) then Some v else lookupProp key props'
  | [] => None
  end.

(** [v.key], for a key that no prototype defines: a [TypeError] ([None])
    on [undefined] and [null], the own property of an object, and
    [undefined] anywhere else. *)
Definition getProp (v : value) (key : jsstring) : option value :=
  match v with
  | VUndefined | VNull => None
  | VObject props => Some (default VUndefined (lookupProp key props))
  | _ => Some VUndefined
  end.

(** The own enumerable properties that [{ ...h }] copies: those of an
    object, the elements of an array and the code units of a string under
    their indices, nothing for any other value. *)
Definition spread (h : value) : list (jsstring * value) :=
  match h with
  | VObject props => props
  | VArray elems => imap (fun i v => (toString (Z.of_nat i), v)) elems
  | VString s => imap (fun i c => (toString (Z.of_nat i), VString [c])) s
  | _ => []
  end.

(** Defining a property in an object literal: an existing key keeps its
    place and takes the new value, a new key goes to the end. *)
Fixpoint setProp (key : jsstring) (v : value) (props : list (jsstring * value))
    : list (jsstring * value) :=
  match props with
  | (k, w) :: props' =>
      if decide (k = key) then (k, v) :: props'
      else (k, w) :: setProp key v props'
  | [] => [(key, v)]
  end.

(** Whether [new Date(v)] throws.  The constructor converts an object to
    a primitive through [valueOf] and [toString]; a parsed object can
    only break that by a property of its own named [toString] (which is no
    function), and an array by holding such an object, since its
    [toString] joins the texts of its elements. *)
Fixpoint dateThrows (v : value) : bool :=
  match v with
  | VObject props =>
      bool_decide (is_Some (lookupProp (lit "toString") props))
  | VArray elems => existsb dateThrows elems
  | _ => false
  end.

(** The callback of [parsed.history?.map]:
    [{ ...h, timestamp: new Date(h.timestamp) }]. *)
Definition reviveEntry (h : value) : option value :=
  ts ← getProp h (lit "timestamp");
  if dateThrows ts then None
  else Some (VObject (setProp (lit "timestamp") (VDate ts) (spread h))).

(** [parsed.history?.map(...)]: [undefined] for a missing or [null]
    history, the mapped array for an array, a [TypeError] for anything
    else, which has no [map] to call. *)
Definition reviveHistory (hist : value) : option value :=
  match hist with
  | VUndefined | VNull => Some VUndefined
  | VArray elems => VArray <$> mapM reviveEntry elems
  | _ => None
  end.

(** The object literal returned inside the [try]; [None] when building
    it throws. *)
Definition stateOfParsed (parsed : value) : option SavedState :=
  ps ← getProp parsed (lit "players");
  hist ← getProp parsed (lit "history");
  revived ← reviveHistory hist;
  rn ← getProp parsed (lit "roundNumber");
  cs ← getProp parsed (lit "courts");
  pt ← getProp parsed (lit "playingType");
  am ← getProp parsed (lit "advancedMode");
  Some {| saved_players := orElse ps (VArray []);
          saved_history := orElse revived (VArray []);
          saved_roundNumber := orElse rn (VNumber (Finite 1 1));
          saved_courts := orElse cs (VNumber (Finite 1 1));
          saved_playingType := orElse pt (VString (lit "double"));
          saved_advancedMode := orElse am (VBoolean false) |}.

(** The fresh session returned after the [try]. *)
Definition defaultState : SavedState :=
  {| saved_players := VArray [];
     saved_history := VArray [];
     saved_roundNumber := VNumber (Finite 1 1);
     saved_courts := VNumber (Finite 1 1);
     saved_playingType := VString (lit "double");
     saved_advancedMode := VBoolean false |}.

(** What [localStorage.getItem('badmintonState')] does: it throws, it
    returns [null], or it returns the stored text. *)
Inductive StorageRead :=
  | ReadFails
  | Missing
  | Stored (text : jsstring).

(** [loadState].  [JSON_parse] is the parser of the platform, [None]
    when it throws a [SyntaxError].  Every exception raised inside the
    [try] is caught and leads to the fresh session. *)
Definition loadState (JSON_parse : jsstring -> option value)
    (read : StorageRead) : SavedState :=
  match read with
  | Stored saved =>
      if truthy_string saved
      then default defaultState (JSON_parse saved ≫= stateOfParsed)
      else defaultState
  | Missing | ReadFails => defaultState
  end.






(** ** Notions used in the statements *)

(** The order a comparator describes: [x] may stand before [y]. *)
Definition cmp_le {A} (cmp : A -> A -> Z) (x y : A) : Prop := cmp x y <= 0.

(** The order the sort is meant to produce: fewer games first, the lower
    skill tier first among players with the same number of games. *)
Definition playsBefore (a b : Player) : Prop :=
  gamesPlayed a < gamesPlayed b
  \/ (gamesPlayed a = gamesPlayed b
      /\ skillOrder (skill a) <= skillOrder (skill b)).

(** The players at positions [i*K .. (i+1)*K - 1] of [ps]. *)
Definition courtGroup (t : PlayingType) (ps : list loc) (i : nat) : list loc :=
  take (Z.to_nat (playersPerMatch t))
       (drop (i * Z.to_nat (playersPerMatch t)) ps).

Definition playersOf (m : Match) : list loc := team1 m ++ team2 m.

(** The number of matches a round produces. *)
Definition matchCount (st : State) : nat :=
  Z.to_nat (Z.min (courts st)
                  (Z.of_nat (length (activePlayers st))
                   / playersPerMatch (playingType st))).

(** The roster holds each object once, and every reference in it is
    live. *)
Definition roster_wf (st : State) : Prop :=
  NoDup (players st)
  /\ Forall (fun l => (l < length (heap st))%nat) (players st).

(** Every player that some match of [ms] holds, in court order. *)
Definition placedPlayers (ms : list Match) : list loc :=
  mjoin (playersOf <$> ms).

(** What a match shows of its members: the records its two teams refer
    to, read through the store. *)
Definition matchView (h : list Player) (m : Match)
    : list Player * list Player :=
  (deref h <$> team1 m, deref h <$> team2 m).

(** The ids of the roster, in roster order. *)
Definition rosterIds (st : State) : list jsstring :=
  (fun l => player_id (deref (heap st) l)) <$> players st.

(** ** Example sessions *)

(** Four players A, B, C, D: C has played once, the skill tiers differ. *)
Definition exampleHeap : list Player :=
  [ mkPlayer (lit "1") (lit "A") beginner 0 false;
    mkPlayer (lit "2") (lit "B") intermediate 0 false;
    mkPlayer (lit "3") (lit "C") beginner 1 false;
    mkPlayer (lit "4") (lit "D") pro_player 0 false ].

Definition exampleSession : State :=
  {| heap := exampleHeap;
     players := [0; 1; 2; 3]%nat;
     playerName := lit " Eve ";
     playerSkill := beginner;
     courts := 1;
     playingType := double;
     currentMatches := [];
     history := [];
     roundNumber := 1;
     showHistory := false;
     advancedMode := false |}.

(** A clock for the examples. *)
Definition exampleClock (i : Z) : Z := 1700000000000 + i.

(** The session of a first start: the defaults of [loadState] in the
    hooks, nothing allocated. *)
Definition emptySession : State :=
  {| heap := [];
     players := [];
     playerName := [];
     playerSkill := beginner;
     courts := 1;
     playingType := double;
     currentMatches := [];
     history := [];
     roundNumber := 1;
     showHistory := false;
     advancedMode := false |}.

(** Two players entered in advanced mode with the tiers [s1] and [s2],
    after which advanced mode is switched off again. *)
Definition twoTiers (s1 s2 : SkillLevel) : State :=
  let st0 := toggleAdvancedMode emptySession in
  let st1 := addPlayer 1 (setPlayerName (lit "Ann") (setPlayerSkill s1 st0)) in
  let st2 := addPlayer 2 (setPlayerName (lit "Bob") (setPlayerSkill s2 st1)) in
  toggleAdvancedMode st2.

(** The players with [g] games and stored tier [s]. *)
Definition sameKey (h : list Player) (g : Z) (s : SkillLevel) (l : loc) : Prop :=
  gamesPlayed (deref h l) = g /\ skill (deref h l) = s.

#[global] Instance sameKey_dec h g s l : Decision (sameKey h g s l).
Proof. unfold sameKey. apply _. Defined.





(** ** The actions of the component *)

(** One user action: [step st st'] when some handler of the component
    takes the state [st] to [st']. *)
Inductive step : State -> State -> Prop :=
  | step_addPlayer now st : step st (addPlayer now st)
  | step_removePlayer id st : step st (removePlayer id st)
  | step_toggleLeave id st : step st (toggleLeave id st)
  | step_endDay confirmed st : step st (endDay confirmed st)
  | step_generateMatches now stamp st :
      step st (generateMatches now stamp st).1
  | step_changeCourts v st : step st (changeCourts v st)
  | step_setPlayingType t st : step st (setPlayingType t st)
  | step_setPlayerName v st : step st (setPlayerName v st)
  | step_setPlayerSkill v st : step st (setPlayerSkill v st)
  | step_toggleAdvancedMode st : step st (toggleAdvancedMode st).

(** The state of the hooks after [loadState] returned the player
    records [ps]: parsing makes one new object for each. *)
Definition mountSession (ps : list Player) (c : Z) (t : PlayingType)
    (rn : Z) (am : bool) : State :=
  {| heap := ps;
     players := seq 0 (length ps);
     playerName := [];
     playerSkill := beginner;
     courts := c;
     playingType := t;
     currentMatches := [];
     history := [];
     roundNumber := rn;
     showHistory := false;
     advancedMode := am |}.

(** The matches a session holds: the current ones and those of every
    history entry. *)
Definition storedMatches (st : State) : list Match :=
  currentMatches st ++ (history st ≫= matches).

(** Every reference held by a stored match is live. *)
Definition stored_live (st : State) : Prop :=
  Forall (fun m => Forall (fun l => (l < length (heap st))%nat) (playersOf m))
         (storedMatches st).

(** The session after one round over the four example players, and the
    match of that round. *)
Definition exampleRound1 : State :=
  (generateMatches exampleClock 5 exampleSession).1.

Definition exampleMatch : Match :=
  makeMatch (exampleClock 0) double 1 0 [0; 1; 3; 2]%nat.


(** ** Further notions *)

(** The records of the roster, in roster order: what the list of
    players shows. *)
Definition rosterRecords (st : State) : list Player :=
  deref (heap st) <$> players st.

(** What the callback of [toggleLeave] makes of one record. *)
Definition toggleRecord (id : jsstring) (p : Player) : Player :=
  if decide (player_id p = id) then flipLeave p else p.

(** The decimal digits. *)
Definition isDigit (c : N) : bool := ((48 <=? c) && (c <=? 57))%N.

(** [setShowHistory(!showHistory)], the handler of the history button. *)
Definition toggleShowHistory (st : State) : State :=
  {| heap := heap st;
     players := players st;
     playerName := playerName st;
     playerSkill := playerSkill st;
     courts := courts st;
     playingType := playingType st;
     currentMatches := currentMatches st;
     history := history st;
     roundNumber := roundNumber st;
     showHistory := negb (showHistory st);
     advancedMode := advancedMode st |}.

(** The sessions that the user's actions lead to from a first start. *)
Inductive reachable : State -> Prop :=
  | reachable_start : reachable emptySession
  | reachable_step st st' : reachable st -> step st st' -> reachable st'
  | reachable_showHistory st : reachable st -> reachable (toggleShowHistory st).

(** A stored match as [generateMatches] makes it: a court from 1 up, two
    teams of one or of two players, no player twice. *)
Definition matchShape (m : Match) : Prop :=
  1 <= court m
  /\ length (team1 m) = length (team2 m)
  /\ (length (team1 m) = 1%nat \/ length (team1 m) = 2%nat)
  /\ NoDup (playersOf m).

(** A session reached from a first start: Ann and Bob are entered and
    play one round of singles. *)
Definition exampleTwo : State :=
  setPlayingType single
    (addPlayer 2 (setPlayerName (lit " Bob")
       (addPlayer 1 (setPlayerName (lit "Ann ") emptySession)))).

Definition exampleReached : State := (generateMatches exampleClock 5 exampleTwo).1.

(** ** What the effect saves

    The effect writes [JSON.stringify] of the object
    [{ players, history, roundNumber, courts, playingType, advancedMode }]
    under the key.  The definitions below give the value a parser reads
    back from that text: objects with their properties in the order of
    the object literals of the source, arrays of them, and for a [Date]
    the text [toISOString] makes of it. *)

Definition skillName (s : SkillLevel) : jsstring :=
  match s with
  | beginner => lit "beginner"
  | intermediate => lit "intermediate"
  | pro_player => lit "pro-player"
  end.

Definition playingTypeName (t : PlayingType) : jsstring :=
  match t with single => lit "single" | double => lit "double" end.

Definition integer (z : Z) : value := VNumber (Finite z 1).

Definition playerValue (p : Player) : value :=
  VObject [ (lit "id", VString (player_id p));
            (lit "name", VString (name p));
            (lit "skill", VString (skillName (skill p)));
            (lit "gamesPlayed", integer (gamesPlayed p));
            (lit "isOnLeave", VBoolean (isOnLeave p)) ].

Definition matchValue (h : list Player) (m : Match) : value :=
  VObject [ (lit "id", VString (match_id m));
            (lit "court", integer (court m));
            (lit "team1", VArray ((fun l => playerValue (deref h l)) <$> team1 m));
            (lit "team2", VArray ((fun l => playerValue (deref h l)) <$> team2 m));
            (lit "round", integer (round m)) ].

(** A history entry, with [ts] for its timestamp. *)
Definition entryValue (h : list Player) (ts : value) (e : MatchHistory)
    : value :=
  VObject [ (lit "round", integer (history_round e));
            (lit "matches", VArray (matchValue h <$> matches e));
            (lit "timestamp", ts) ].

(** The value read back from what the effect saved for [st]. *)
Definition savedValue (toISOString : Z -> jsstring) (st : State) : value :=
  VObject
    [ (lit "players", VArray (playerValue <$> rosterRecords st));
      (lit "history",
       VArray ((fun e => entryValue (heap st)
                           (VString (toISOString (timestamp e))) e)
                 <$> history st));
      (lit "roundNumber", integer (roundNumber st));
      (lit "courts", integer (courts st));
      (lit "playingType", VString (playingTypeName (playingType st)));
      (lit "advancedMode", VBoolean (advancedMode st)) ].

(** The persisted part of a session as [loadState] hands it to the
    hooks: as saved, with each timestamp a [Date] made from its text. *)
Definition sessionImage (toISOString : Z -> jsstring) (st : State)
    : SavedState :=
  {| saved_players := VArray (playerValue <$> rosterRecords st);
     saved_history :=
       VArray ((fun e => entryValue (heap st)
                           (VDate (VString (toISOString (timestamp e)))) e)
                 <$> history st);
     saved_roundNumber := integer (roundNumber st);
     saved_courts := integer (courts st);
     saved_playingType := VString (playingTypeName (playingType st));
     saved_advancedMode := VBoolean (advancedMode st) |}.

(** A parser that knows one text and the value it stands for. *)
Definition parseOnly (text : jsstring) (v : value) (s : jsstring)
    : option value :=
  if decide (s = text) then Some v else None.

(** A stand-in for [toISOString] in the examples. *)
Definition exampleISO (t : Z) : jsstring := lit "T" ++ toString t.

(** A stored value with a good roster and a history whose only entry is
    [null]. *)
Definition nullEntryValue : value :=
  VObject [ (lit "players", VArray (playerValue <$> exampleHeap));
            (lit "history", VArray [VNull]) ].

(** ** The words of the specification

    The notions below are written from the text of the specification,
    not from the code; the theorems compare the code with them. *)

(** An active player: a roster member with on-leave = false. *)
Definition spec_active (st : State) : list loc :=
  List.filter (fun l => negb (isOnLeave (deref (heap st) l))) (players st).


(** The ranking of the skill tiers: beginner < intermediate < pro. *)
Inductive tierBelow : SkillLevel -> SkillLevel -> Prop :=
  | beginner_below_intermediate : tierBelow beginner intermediate
  | intermediate_below_pro : tierBelow intermediate pro_player
  | beginner_below_pro : tierBelow beginner pro_player.

(** Ascending by games played, then ascending by skill tier as a
    tie-break: [a] may stand before [b]. *)
Definition spec_before (a b : Player) : Prop :=
  gamesPlayed a < gamesPlayed b
  \/ (gamesPlayed a = gamesPlayed b
      /\ (skill a = skill b \/ tierBelow (skill a) (skill b))).

(** ** Rebuilding one history entry *)



(** A stored value whose history is [null], beside a roster of one
    player. *)
Definition nullHistoryValue : value :=
  VObject [ (lit "players", VArray [playerValue (mkPlayer (lit "1") (lit "A")
                                      beginner 0 false)]);
            (lit "history", VNull) ].

(** * Properties *)

(** ** Slices *)

Lemma slice_nonneg {A} (l : list A) (a b : Z) :
  0 <= a -> 0 <= b ->
  slice l a b = take (Z.to_nat b - Z.to_nat a) (drop (Z.to_nat a) l).
Proof.
  intros Ha Hb. unfold slice.
  destruct (Z.ltb_spec a 0); [lia|]. destruct (Z.ltb_spec b 0); [lia|].
  destruct (Z.le_gt_cases a (Z.of_nat (length l))) as [Hal|Hal].
  - rewrite (Z.min_l a) by lia.
    destruct (Z.le_gt_cases b (Z.of_nat (length l))) as [Hbl|Hbl].
    + rewrite Z.min_l by lia. f_equal. lia.
    + rewrite Z.min_r by lia.
      rewrite !take_ge; [done| |]; rewrite length_drop; lia.
  - rewrite (Z.min_r a) by lia.
    rewrite !drop_ge by lia. by rewrite !take_nil.
Qed.

Lemma slice_prefix {A} (l : list A) (b : Z) :
  0 <= b -> slice l 0 b = take (Z.to_nat b) l.
Proof.
  intros Hb. rewrite slice_nonneg by lia. simpl. rewrite drop_0.
  f_equal. lia.
Qed.

(** The group cut out for court index [i], as a window of [k] elements. *)
Lemma slice_group {A} (l : list A) (i : nat) (K : Z) :
  0 <= K ->
  slice l (Z.of_nat i * K) ((Z.of_nat i + 1) * K)
  = take (Z.to_nat K) (drop (i * Z.to_nat K) l).
Proof.
  intros HK. rewrite slice_nonneg by nia. f_equal; [nia|]. f_equal. nia.
Qed.

(** ** The sort *)

Section SortFacts.
Context {A : Type} (cmp : A -> A -> Z).

Lemma sort_insert_perm x l : sort_insert cmp x l ≡ₚ x :: l.
  Proof.
    induction l as [|y l IH]; simpl; [done|].
    destruct (0 <? cmp x y); [|done].
    rewrite IH. apply Permutation_swap.
  Qed.

Lemma sort_perm l : sort cmp l ≡ₚ l.
  Proof.
    induction l as [|x l IH]; simpl; [done|].
    by rewrite sort_insert_perm, IH.
  Qed.

Hypothesis cmp_total : forall x y, 0 < cmp x y -> cmp y x <= 0.
Hypothesis cmp_trans :
    forall x y z, cmp x y <= 0 -> cmp y z <= 0 -> cmp x z <= 0.

Lemma sort_insert_sorted x l :
    StronglySorted (cmp_le cmp) l -> StronglySorted (cmp_le cmp) (sort_insert cmp x l).
  Proof.
    induction 1 as [|y l Hs IH Hall]; simpl.
    - repeat constructor.
    - destruct (Z.ltb_spec 0 (cmp x y)) as [Hlt|Hge].
      + constructor; [done|].
        rewrite sort_insert_perm. constructor; [|done].
        by apply cmp_total.
      + constructor; [by constructor|].
        constructor; [done|].
        eapply Forall_impl; [exact Hall|].
        intros z Hz. by eapply cmp_trans.
  Qed.

Lemma sort_sorted l : StronglySorted (cmp_le cmp) (sort cmp l).
  Proof.
    induction l as [|x l IH]; simpl; [constructor|].
    by apply sort_insert_sorted.
  Qed.

  (** Stability: the elements of one class of the comparator keep the
      order they had.  The class is given by a decidable predicate [P]
      that the comparator never separates from below. *)
Lemma sort_insert_stable (P : A -> Prop) `{!forall x, Decision (P x)} x l :
    (forall y, P x -> 0 < cmp x y -> ~ P y) ->
    filter P (sort_insert cmp x l) = filter P (x :: l).
  Proof.
    intros HP. induction l as [|y l IH]; simpl; [done|].
    destruct (Z.ltb_spec 0 (cmp x y)) as [Hlt|Hge]; [|done].
    rewrite (filter_cons _ y), IH, !(filter_cons _ x), (filter_cons _ y).
    destruct (decide (P x)) as [Hx|Hx]; [|done].
    destruct (decide (P y)) as [Hy|Hy]; [|done].
    by destruct (HP y Hx Hlt).
  Qed.

Lemma sort_stable (P : A -> Prop) `{!forall x, Decision (P x)} l :
    (forall x y, P x -> 0 < cmp x y -> ~ P y) ->
    filter P (sort cmp l) = filter P l.
  Proof.
    intros HP. induction l as [|x l IH]; simpl; [done|].
    rewrite sort_insert_stable by eauto.
    by rewrite !(filter_cons _ x), IH.
  Qed.
End SortFacts.

(** ** The comparator *)

Lemma comparePlayers_le a b : comparePlayers a b <= 0 <-> playsBefore a b.
Proof.
  unfold comparePlayers, playsBefore.
  destruct (Z.eqb_spec (gamesPlayed a) (gamesPlayed b)); simpl; lia.
Qed.

Lemma comparePlayers_total a b :
  0 < comparePlayers a b -> comparePlayers b a <= 0.
Proof.
  unfold comparePlayers.
  destruct (Z.eqb_spec (gamesPlayed a) (gamesPlayed b)),
           (Z.eqb_spec (gamesPlayed b) (gamesPlayed a)); simpl; lia.
Qed.

Lemma comparePlayers_trans a b c :
  comparePlayers a b <= 0 -> comparePlayers b c <= 0 ->
  comparePlayers a c <= 0.
Proof. rewrite !comparePlayers_le. unfold playsBefore. lia. Qed.

Lemma comparePlayers_same_key a b :
  gamesPlayed a = gamesPlayed b -> skill a = skill b ->
  comparePlayers a b = 0.
Proof.
  intros Hg Hs. unfold comparePlayers. rewrite Hg, Hs, Z.eqb_refl. simpl. lia.
Qed.

(** ** Incrementing in place *)

Lemma incAll_length h ps : length (incAll h ps) = length h.
Proof.
  revert h. induction ps as [|p ps IH]; intros h; simpl; [done|].
  unfold incAll in *. simpl. by rewrite IH, length_alter.
Qed.

Lemma incAll_app h ps qs : incAll h (ps ++ qs) = incAll (incAll h ps) qs.
Proof. apply foldl_app. Qed.

Lemma incAll_other h ps l : l ∉ ps -> deref (incAll h ps) l = deref h l.
Proof.
  revert h. induction ps as [|p ps IH]; intros h Hl; [done|].
  apply not_elem_of_cons in Hl as [Hne Hl].
  unfold incAll in *. simpl. rewrite IH by done.
  unfold deref. by rewrite list_lookup_total_alter_ne.
Qed.

Lemma incAll_member h ps l :
  NoDup ps -> l ∈ ps -> (l < length h)%nat ->
  deref (incAll h ps) l = incGamesPlayed (deref h l).
Proof.
  revert h. induction ps as [|p ps IH]; intros h Hnd Hl Hlt.
  - by apply elem_of_nil in Hl.
  - apply NoDup_cons in Hnd as [Hp Hnd].
    change (incAll h (p :: ps)) with (incAll (alter incGamesPlayed p h) ps).
    apply elem_of_cons in Hl as [->|Hl].
    + rewrite incAll_other by done.
      unfold deref. by rewrite list_lookup_total_alter_eq.
    + rewrite IH by (rewrite ?length_alter; done).
      unfold deref. rewrite list_lookup_total_alter_ne; [done|].
      intros ->. done.
Qed.

(** Only the counter of an object is ever touched. *)
Lemma incAll_fields h ps l :
  player_id (deref (incAll h ps) l) = player_id (deref h l)
  /\ name (deref (incAll h ps) l) = name (deref h l)
  /\ skill (deref (incAll h ps) l) = skill (deref h l)
  /\ isOnLeave (deref (incAll h ps) l) = isOnLeave (deref h l).
Proof.
  revert h. induction ps as [|p ps IH]; intros h; [done|].
  change (incAll h (p :: ps)) with (incAll (alter incGamesPlayed p h) ps).
  destruct (IH (alter incGamesPlayed p h)) as (-> & -> & -> & ->).
  unfold deref. destruct (decide (p = l)) as [->|Hne].
  - destruct (decide (l < length h)%nat).
    + by rewrite list_lookup_total_alter_eq.
    + by rewrite !list_lookup_total_alt, list_lookup_alter_eq,
        lookup_ge_None_2 by lia.
  - by rewrite list_lookup_total_alter_ne.
Qed.

(** ** The loop over the courts *)

Lemma playersPerMatch_pos t : 0 < playersPerMatch t.
Proof. by destruct t. Qed.

Lemma makeMatch_players now t rn i g :
  Z.of_nat (length g) = playersPerMatch t ->
  playersOf (makeMatch now t rn i g) = g.
Proof.
  unfold playersOf. destruct t; simpl; intros Hg.
  - destruct g as [|a [|b [|? ?]]]; simpl in *; done || lia.
  - destruct g as [|a [|b [|c [|d [|? ?]]]]]; simpl in *; done || lia.
Qed.

Section Loop.
Context (now : Z -> Z) (t : PlayingType) (rn : Z).

Let k : nat := Z.to_nat (playersPerMatch t).

Lemma courtStep_at available acc (n : nat) :
    courtStep now t rn available acc (Z.of_nat n)
    = if decide ((n + 1) * k <= length available)%nat
      then (acc.1 ++ [makeMatch (now (Z.of_nat n)) t rn (Z.of_nat n)
                        (courtGroup t available n)],
            incAll acc.2 (courtGroup t available n))
      else acc.
  Proof.
    pose proof (playersPerMatch_pos t) as HK.
    unfold courtStep. rewrite slice_group by lia.
    fold (courtGroup t available n).
    assert (length (courtGroup t available n)
            = k `min` (length available - n * k))%nat as Hlen.
    { unfold courtGroup. by rewrite length_take, length_drop. }
    destruct (decide ((n + 1) * k <= length available)%nat) as [Hle|Hgt].
    - rewrite (proj2 (Z.eqb_eq _ _)); [done|]. rewrite Hlen. subst k. lia.
    - rewrite (proj2 (Z.eqb_neq _ _)); [done|]. rewrite Hlen. subst k. lia.
  Qed.

Lemma courtLoop_prefix available h (n : nat) :
    let q := (length available / k)%nat in
    foldl (courtStep now t rn available) ([], h) (seqZ 0 (Z.of_nat n))
    = ((fun i : nat => makeMatch (now (Z.of_nat i)) t rn (Z.of_nat i)
                         (courtGroup t available i)) <$> seq 0 (n `min` q),
       incAll h (take ((n `min` q) * k) available)).
  Proof.
    pose proof (playersPerMatch_pos t) as HK. intros q.
    assert (0 < k)%nat as Hk by (subst k; lia).
    assert (q * k <= length available < (q + 1) * k)%nat as Hq.
    { subst q. pose proof (Nat.div_mod_eq (length available) k).
      pose proof (Nat.mod_upper_bound (length available) k). lia. }
    induction n as [|n IH].
    - done.
    - rewrite seqZ_S, foldl_app, IH. simpl foldl. rewrite Z.add_0_l.
      rewrite courtStep_at. cbn [fst snd].
      destruct (decide ((n + 1) * k <= length available)%nat) as [Hle|Hgt].
      + assert (n < q)%nat by nia.
        rewrite (Nat.min_l n q), (Nat.min_l (S n) q) by lia.
        rewrite seq_S, fmap_app, <- incAll_app. cbn [fmap list_fmap].
        rewrite Nat.add_0_l. f_equal.
        unfold courtGroup. fold k. rewrite take_take_drop.
        by replace (S n * k)%nat with (n * k + k)%nat by (clearbody k; lia).
      + assert (q <= n)%nat by nia.
        by rewrite (Nat.min_r n q), (Nat.min_r (S n) q) by lia.
  Qed.
End Loop.

Lemma sortedPlayers_perm st : sortedPlayers st ≡ₚ activePlayers st.
Proof. apply sort_perm. Qed.

Lemma sortedPlayers_length st :
  length (sortedPlayers st) = length (activePlayers st).
Proof. by rewrite sortedPlayers_perm. Qed.

Lemma courtGroup_take t ps (c i : nat) :
  (i < c)%nat ->
  courtGroup t (take (c * Z.to_nat (playersPerMatch t)) ps) i
  = courtGroup t ps i.
Proof.
  intros Hi. unfold courtGroup.
  set (k := Z.to_nat (playersPerMatch t)).
  rewrite !take_drop_commute, take_take. do 2 f_equal. nia.
Qed.

(** The loop, in closed form: court index [i] receives the [i]-th group
    of the sorted players, for every [i] below [matchCount], and exactly
    the players of those groups are incremented. *)
Lemma courtLoop_spec now st :
  courtLoop now st
  = ((fun i : nat =>
        makeMatch (now (Z.of_nat i)) (playingType st) (roundNumber st)
                  (Z.of_nat i)
                  (courtGroup (playingType st) (sortedPlayers st) i))
       <$> seq 0 (matchCount st),
     incAll (heap st)
       (take (matchCount st * Z.to_nat (playersPerMatch (playingType st)))
             (sortedPlayers st))).
Proof.
  unfold courtLoop, matchCount, availablePlayers.
  pose proof (playersPerMatch_pos (playingType st)) as HK.
  rewrite <- sortedPlayers_length.
  remember (sortedPlayers st) as S eqn:HS. clear HS.
  destruct (Z.le_gt_cases (courts st) 0) as [HC|HC].
  - rewrite seqZ_nil by done.
    replace (Z.to_nat _) with 0%nat by lia. done.
  - destruct (Z_of_nat_complete (courts st)) as [c Hc]; [lia|].
    rewrite Hc in *. rewrite slice_prefix by lia.
    assert (exists k : nat, playersPerMatch (playingType st) = Z.of_nat k)
      as [k HkZ] by (exists (Z.to_nat (playersPerMatch (playingType st))); lia).
    rewrite courtLoop_prefix.
    rewrite HkZ in *. rewrite <- Nat2Z.inj_mul, !Nat2Z.id.
    rewrite <- Nat2Z.inj_div, <- Nat2Z.inj_min, Nat2Z.id.
    assert ((c `min` (length (take (c * k) S) / k) = c `min` (length S / k))%nat)
      as ->.
    { rewrite length_take.
      destruct (decide (c * k <= length S)%nat) as [Hle|Hgt].
      - rewrite (Nat.min_l (c * k)) by done. rewrite Nat.div_mul by lia.
        pose proof (Nat.div_le_lower_bound (length S) k c). lia.
      - by rewrite (Nat.min_r (c * k)) by lia. }
    f_equal.
    + apply list_fmap_ext. intros j i Hi.
      apply lookup_seq in Hi as [-> Hi]. simpl.
      f_equal. rewrite <- (Nat2Z.id k), <- HkZ.
      apply courtGroup_take. lia.
    + f_equal. rewrite take_take. f_equal. nia.
Qed.

(** ** Groups and placed players *)


Lemma courtGroup_length t ps i :
  ((i + 1) * Z.to_nat (playersPerMatch t) <= length ps)%nat ->
  length (courtGroup t ps i) = Z.to_nat (playersPerMatch t).
Proof.
  intros Hi. unfold courtGroup. rewrite length_take, length_drop. lia.
Qed.

Lemma courtGroups_join t ps m :
  mjoin (courtGroup t ps <$> seq 0 m)
  = take (m * Z.to_nat (playersPerMatch t)) ps.
Proof.
  induction m as [|m IH]; [done|].
  rewrite seq_S, fmap_app, join_app, IH. simpl.
  rewrite app_nil_r. unfold courtGroup. rewrite take_take_drop.
  f_equal. lia.
Qed.

Lemma matchCount_bound st :
  (matchCount st * Z.to_nat (playersPerMatch (playingType st))
   <= length (sortedPlayers st))%nat.
Proof.
  rewrite sortedPlayers_length. unfold matchCount.
  pose proof (playersPerMatch_pos (playingType st)) as HK.
  generalize dependent (playersPerMatch (playingType st)). intros K HK.
  generalize (length (activePlayers st)). intros n.
  pose proof (Z.mul_div_le (Z.of_nat n) K HK).
  assert (0 <= Z.of_nat n / K) by (apply Z.div_pos; lia).
  generalize dependent (Z.of_nat n / K). intros q Hq1 Hq2.
  destruct (Z.min_spec (courts st) q) as [[? ->]|[? ->]]; nia.
Qed.

Lemma courtLoop_players now st :
  playersOf <$> (courtLoop now st).1
  = courtGroup (playingType st) (sortedPlayers st) <$> seq 0 (matchCount st).
Proof.
  rewrite courtLoop_spec. simpl. rewrite <- list_fmap_compose.
  apply list_fmap_ext. intros j i Hi.
  apply lookup_seq in Hi as [-> Hi]. simpl.
  apply makeMatch_players.
  pose proof (matchCount_bound st).
  pose proof (playersPerMatch_pos (playingType st)).
  rewrite courtGroup_length by nia. lia.
Qed.

Lemma courtLoop_placed now st :
  placedPlayers (courtLoop now st).1
  = take (matchCount st * Z.to_nat (playersPerMatch (playingType st)))
         (sortedPlayers st).
Proof.
  unfold placedPlayers. by rewrite courtLoop_players, courtGroups_join.
Qed.

Lemma courtLoop_heap now st :
  (courtLoop now st).2 = incAll (heap st) (placedPlayers (courtLoop now st).1).
Proof. rewrite courtLoop_placed. by rewrite courtLoop_spec. Qed.

Lemma activePlayers_NoDup st : NoDup (players st) -> NoDup (activePlayers st).
Proof. apply NoDup_filter. Qed.

Lemma sortedPlayers_NoDup st : NoDup (players st) -> NoDup (sortedPlayers st).
Proof.
  intros H. rewrite sortedPlayers_perm. by apply activePlayers_NoDup.
Qed.

Lemma sortedPlayers_roster st l : l ∈ sortedPlayers st -> l ∈ players st.
Proof.
  rewrite sortedPlayers_perm. unfold activePlayers.
  rewrite list_elem_of_filter. tauto.
Qed.

Lemma join_NoDup_disjoint {A} (ls : list (list A)) i j a b :
  NoDup (mjoin ls) -> i <> j -> ls !! i = Some a -> ls !! j = Some b ->
  forall x, x ∈ a -> x ∉ b.
Proof.
  revert i j. induction ls as [|c ls IH]; intros i j Hnd Hij Hi Hj x Ha Hb.
  - done.
  - simpl in Hnd. apply NoDup_app in Hnd as (_ & Hcross & Hnd).
    destruct i as [|i], j as [|j]; simplify_eq/=.
    + apply (Hcross x Ha). apply list_elem_of_join. exists b. split; [done|].
      by eapply list_elem_of_lookup_2.
    + apply (Hcross x Hb). apply list_elem_of_join. exists a. split; [done|].
      by eapply list_elem_of_lookup_2.
    + eapply (IH i j); eauto.
Qed.

(** ** Validation *)

Lemma tooFewPlayers_true st :
  tooFewPlayers st = true
  <-> Z.of_nat (length (activePlayers st)) < playersPerMatch (playingType st).
Proof. unfold tooFewPlayers. destruct (playingType st); simpl; lia. Qed.


(** ** generateMatches *)

Lemma generateMatches_rejected now stamp st :
  tooFewPlayers st = true ->
  generateMatches now stamp st = (st, Some (alertMessage (playingType st))).
Proof. intros H. unfold generateMatches. by rewrite H. Qed.

Lemma generateMatches_accepted now stamp st :
  tooFewPlayers st = false ->
  generateMatches now stamp st
  = ({| heap := (courtLoop now st).2;
        players := players st;
        playerName := playerName st;
        playerSkill := playerSkill st;
        courts := courts st;
        playingType := playingType st;
        currentMatches := (courtLoop now st).1;
        history := mkMatchHistory (roundNumber st) (courtLoop now st).1 stamp
                   :: history st;
        roundNumber := roundNumber st + 1;
        showHistory := showHistory st;
        advancedMode := advancedMode st |}, None).
Proof. intros H. unfold generateMatches. by rewrite H. Qed.

Lemma exampleSession_wf : roster_wf exampleSession.
Proof. split; [compute_done|repeat constructor; simpl; lia]. Qed.

(** The code's notions against the words of the specification. *)
Lemma activePlayers_spec st : activePlayers st = spec_active st.
Proof.
  unfold activePlayers, spec_active.
  induction (players st) as [|l ls IH]; [done|].
  rewrite filter_cons. cbn [List.filter]. rewrite <- IH.
  destruct (decide (isOnLeave (deref (heap st) l) = false)) as [H|H].
  - by rewrite H.
  - by destruct (isOnLeave (deref (heap st) l)).
Qed.


Lemma playsBefore_spec a b : playsBefore a b <-> spec_before a b.
Proof.
  unfold playsBefore, spec_before. split.
  - intros [Hlt|[Heq Hs]]; [by left|]. right. split; [done|].
    destruct (skill a), (skill b); simpl in Hs;
      first [by left | right; constructor | lia].
  - intros [Hlt|[Heq [Hs|Hs]]]; [by left| |].
    + right. rewrite Hs. split; [done|lia].
    + right. split; [done|]. destruct Hs; simpl; lia.
Qed.




Lemma StronglySorted_lookup {A} (R : A -> A -> Prop) l i j a b :
  StronglySorted R l -> (i < j)%nat ->
  l !! i = Some a -> l !! j = Some b -> R a b.
Proof.
  intros Hs. revert i j. induction Hs as [|x l Hs IH Hall]; intros i j Hij Hi Hj.
  - done.
  - destruct j as [|j]; [lia|]. destruct i as [|i]; simplify_eq/=.
    + eapply (proj1 (Forall_forall _ _) Hall).
      by eapply list_elem_of_lookup_2.
    + apply (IH i j); [lia|done..].
Qed.

Lemma sortedPlayers_sorted st i j a b :
  (i < j)%nat ->
  sortedPlayers st !! i = Some a -> sortedPlayers st !! j = Some b ->
  playsBefore (deref (heap st) a) (deref (heap st) b).
Proof.
  intros Hij Hi Hj. apply comparePlayers_le.
  refine (StronglySorted_lookup
            (cmp_le (fun a b => comparePlayers (deref (heap st) a)
                                               (deref (heap st) b)))
            _ i j a b _ Hij Hi Hj).
  apply sort_sorted; intros;
    eauto using comparePlayers_total, comparePlayers_trans.
Qed.



(** C3.  When fewer players are active than one court of the format
    needs (2 for singles, 4 for doubles), the call shows a message and
    leaves the whole state as it was: roster, every player record,
    history, current matches and round counter. *)
Theorem generateMatches_too_few now stamp st :
  Z.of_nat (length (activePlayers st))
  < match playingType st with single => 2 | double => 4 end ->
  generateMatches now stamp st = (st, Some (alertMessage (playingType st))).
Proof.
  intros H. apply generateMatches_rejected, tooFewPlayers_true.
  by destruct (playingType st).
Qed.

(** Three active players, doubles. *)
Lemma generateMatches_too_few_witness :
  generateMatches exampleClock 5 (removePlayer (lit "4") exampleSession)
  = (removePlayer (lit "4") exampleSession, Some (alertMessage double)).
Proof.
  apply (generateMatches_too_few exampleClock 5
           (removePlayer (lit "4") exampleSession)).
  vm_compute. reflexivity.
Defined.


(** C10.  The matches one call produces are pairwise disjoint: no player
    is in two matches of the round. *)
Theorem generateMatches_disjoint now stamp st :
  NoDup (players st) ->
  tooFewPlayers st = false ->
  let ms := currentMatches (generateMatches now stamp st).1 in
  NoDup (placedPlayers ms)
  /\ forall i j m1 m2 p,
       i <> j -> ms !! i = Some m1 -> ms !! j = Some m2 ->
       p ∈ playersOf m1 -> p ∉ playersOf m2.
Proof.
  intros Hnd Hok ms. subst ms.
  rewrite generateMatches_accepted by done. cbn [fst currentMatches].
  assert (NoDup (placedPlayers (courtLoop now st).1)) as Hplaced.
  { rewrite courtLoop_placed.
    eapply sublist_NoDup; [|apply sublist_take].
    by apply sortedPlayers_NoDup. }
  split; [done|].
  intros i j m1 m2 p Hij H1 H2.
  apply (join_NoDup_disjoint (playersOf <$> (courtLoop now st).1) i j);
    [done|done|by rewrite list_lookup_fmap, H1|by rewrite list_lookup_fmap, H2].
Qed.

(** Two courts of singles over the four example players. *)
Lemma generateMatches_disjoint_witness :
  NoDup (placedPlayers (currentMatches
    (generateMatches exampleClock 5
       (changeCourts (lit "2") (setPlayingType single exampleSession))).1)).
Proof.
  refine (proj1 (generateMatches_disjoint exampleClock 5
            (changeCourts (lit "2") (setPlayingType single exampleSession))
            _ _)).
  - compute_done.
  - reflexivity.
Defined.

(** ** Stored matches and the store *)

Lemma deref_app h extra l :
  (l < length h)%nat -> deref (h ++ extra) l = deref h l.
Proof. intros Hl. unfold deref. by rewrite lookup_total_app_l. Qed.

Lemma matchView_app h extra m :
  Forall (fun l => (l < length h)%nat) (playersOf m) ->
  matchView (h ++ extra) m = matchView h m.
Proof.
  unfold playersOf, matchView. rewrite Forall_app. intros [H1 H2].
  f_equal; apply list_fmap_ext; intros i l Hl; apply deref_app.
  - eapply (proj1 (Forall_lookup _ _) H1); eauto.
  - eapply (proj1 (Forall_lookup _ _) H2); eauto.
Qed.

Lemma toggleStep_grows id ps acc :
  exists extra, (foldl (toggleStep id) acc ps).2 = acc.2 ++ extra.
Proof.
  revert acc. induction ps as [|p ps IH]; intros acc; simpl.
  - exists []. by rewrite app_nil_r.
  - destruct (IH (toggleStep id acc p)) as [extra ->].
    unfold toggleStep. case_decide; simpl.
    + eexists. by rewrite <- app_assoc.
    + by eexists.
Qed.

Lemma toggleLeave_heap id st :
  exists extra, heap (toggleLeave id st) = heap st ++ extra.
Proof. apply (toggleStep_grows id (players st) ([], heap st)). Qed.

Lemma addPlayer_heap now st :
  exists extra, heap (addPlayer now st) = heap st ++ extra.
Proof.
  unfold addPlayer. destruct (truthy_string _); simpl.
  - by eexists.
  - exists []. by rewrite app_nil_r.
Qed.

Lemma generateMatches_heap now stamp st :
  heap (generateMatches now stamp st).1
  = if tooFewPlayers st then heap st
    else incAll (heap st)
           (placedPlayers (currentMatches (generateMatches now stamp st).1)).
Proof.
  destruct (tooFewPlayers st) eqn:Hv.
  - by rewrite generateMatches_rejected.
  - rewrite generateMatches_accepted by done. simpl. apply courtLoop_heap.
Qed.

(** A field that [generateMatches] never writes. *)
Ltac kept_field :=
  rewrite generateMatches_heap;
  destruct (tooFewPlayers _); [done|apply incAll_fields].

(** C5, as the claim has it, fails: the teams of a stored match refer to
    the roster's own records, so a second round changes what the match of
    the first round shows.  Here the four example players play two
    rounds in a row; the entry of round 1 is still in the history, and
    its match now shows other records than it did. *)
Lemma stored_match_not_a_snapshot :
  let st1 := (generateMatches exampleClock 5 exampleSession).1 in
  let st2 := (generateMatches exampleClock 6 st1).1 in
  exists e m,
    history st1 = [e] /\ matches e = [m]
    /\ history st2 !! 1%nat = Some e
    /\ (gamesPlayed <$> (matchView (heap st1) m).1) = [1; 1]
    /\ (gamesPlayed <$> (matchView (heap st2) m).1) = [2; 2]
    /\ matchView (heap st2) m <> matchView (heap st1) m.
Proof.
  eexists _, _. split; [vm_compute; reflexivity|].
  split; [reflexivity|].
  split; [vm_compute; reflexivity|].
  split; [vm_compute; reflexivity|].
  split; [vm_compute; reflexivity|].
  vm_compute. discriminate.
Qed.

Lemma matchView_incAll h ps m :
  (forall l, l ∈ playersOf m -> l ∉ ps) ->
  matchView (incAll h ps) m = matchView h m.
Proof.
  intros Hout. unfold matchView.
  f_equal; apply list_fmap_ext; intros i l Hl; apply incAll_other, Hout;
    unfold playersOf; apply elem_of_app; [left|right];
    by eapply list_elem_of_lookup_2.
Qed.

(** C5, amended.  A match refers to the records of its players, it does
    not copy them.  For a match stored in the session: [toggleLeave],
    [removePlayer] and [addPlayer] change nothing of what it shows, and
    keep the current matches and the history as they are;
    [generateMatches] keeps the earlier history entries behind what it
    adds, keeps id, name, skill and on-leave flag of every record, and
    adds to the games-played count of a record 1 if it places the record
    in the new round and 0 if it does not or if it rejects the call; so
    across a rejected call, and across a round that places none of its
    member records, the match shows what it showed before. *)
Theorem stored_match_frame st m :
  roster_wf st ->
  stored_live st ->
  m ∈ storedMatches st ->
  (forall id,
     matchView (heap (toggleLeave id st)) m = matchView (heap st) m
     /\ currentMatches (toggleLeave id st) = currentMatches st
     /\ history (toggleLeave id st) = history st)
  /\ (forall id,
        matchView (heap (removePlayer id st)) m = matchView (heap st) m
        /\ currentMatches (removePlayer id st) = currentMatches st
        /\ history (removePlayer id st) = history st)
  /\ (forall now,
        matchView (heap (addPlayer now st)) m = matchView (heap st) m
        /\ currentMatches (addPlayer now st) = currentMatches st
        /\ history (addPlayer now st) = history st)
  /\ (forall now stamp,
        let st' := (generateMatches now stamp st).1 in
        (exists new, history st' = new ++ history st)
        /\ (forall l,
              player_id (deref (heap st') l) = player_id (deref (heap st) l)
              /\ name (deref (heap st') l) = name (deref (heap st) l)
              /\ skill (deref (heap st') l) = skill (deref (heap st) l)
              /\ isOnLeave (deref (heap st') l)
                 = isOnLeave (deref (heap st) l)
              /\ gamesPlayed (deref (heap st') l)
                 = gamesPlayed (deref (heap st) l)
                   + (if tooFewPlayers st then 0
                      else if decide (l ∈ placedPlayers (currentMatches st'))
                           then 1 else 0))
        /\ (tooFewPlayers st = true ->
            matchView (heap st') m = matchView (heap st) m)
        /\ ((forall l, l ∈ playersOf m ->
                       l ∉ placedPlayers (currentMatches st')) ->
            matchView (heap st') m = matchView (heap st) m)).
Proof.
  intros [Hnd Hlive] Hstored Hin.
  assert (Forall (fun l => (l < length (heap st))%nat) (playersOf m)) as Hm
    by by apply (proj1 (Forall_forall _ _) Hstored).
  split; [|split; [|split]].
  - intros id. repeat split.
    destruct (toggleLeave_heap id st) as [extra ->]. by apply matchView_app.
  - intros id. by repeat split.
  - intros now. repeat split.
    + destruct (addPlayer_heap now st) as [extra ->]. by apply matchView_app.
    + unfold addPlayer. by destruct (truthy_string _).
    + unfold addPlayer. by destruct (truthy_string _).
  - intros now stamp st'. subst st'.
    split; [|split; [|split]].
    + destruct (tooFewPlayers st) eqn:Hv.
      * rewrite generateMatches_rejected by done. by exists [].
      * rewrite generateMatches_accepted by done. by eexists [_].
    + intros l. split; [kept_field|]. split; [kept_field|].
      split; [kept_field|]. split; [kept_field|].
      rewrite generateMatches_heap. destruct (tooFewPlayers st) eqn:Hv; [lia|].
      set (ms := currentMatches _).
      assert (NoDup (placedPlayers ms) /\
              forall x, x ∈ placedPlayers ms -> x ∈ players st)
        as [Hp Hroster].
      { subst ms. rewrite generateMatches_accepted by done. simpl.
        rewrite courtLoop_placed. split.
        - eapply sublist_NoDup; [|apply sublist_take].
          by apply sortedPlayers_NoDup.
        - intros x (i & Hi & _)%elem_of_take.
          apply sortedPlayers_roster. by eapply list_elem_of_lookup_2. }
      case_decide as Hl.
      * rewrite incAll_member; [done|done|done|].
        eapply (proj1 (Forall_forall _ _) Hlive). by apply Hroster.
      * rewrite incAll_other by done. lia.
    + intros Hv. by rewrite generateMatches_rejected.
    + intros Hout. rewrite generateMatches_heap.
      destruct (tooFewPlayers st); [done|]. by apply matchView_incAll.
Qed.

Lemma stored_match_frame_witness :
  matchView (heap (toggleLeave (lit "2") exampleRound1)) exampleMatch
  = matchView (heap exampleRound1) exampleMatch.
Proof.
  refine (proj1 (proj1 (stored_match_frame exampleRound1 exampleMatch _ _ _)
                       (lit "2"))).
  - split; [compute_done|]. vm_compute. repeat constructor.
  - vm_compute. repeat constructor.
  - vm_compute. constructor.
Defined.

(** ** Advanced mode and the sort *)

(** C6, as the claim has it, fails: with advanced mode off and equal
    games-played counts, the order of two players follows the tiers
    stored for them.  Ann and Bob are entered in advanced mode, which is
    then switched off; with (pro, beginner) Bob is sorted first, with
    (beginner, pro) Ann is. *)
Lemma sort_follows_stored_skill :
  let st := twoTiers pro_player beginner in
  let st' := twoTiers beginner pro_player in
  advancedMode st = false /\ advancedMode st' = false
  /\ players st = [0; 1]%nat /\ players st' = [0; 1]%nat
  /\ (gamesPlayed <$> heap st) = [0; 0] /\ (gamesPlayed <$> heap st') = [0; 0]
  /\ (name <$> heap st) = (name <$> heap st')
  /\ sortedPlayers st = [1; 0]%nat
  /\ sortedPlayers st' = [0; 1]%nat.
Proof. vm_compute. repeat split. Qed.

(** C6, amended.  The pairing never looks at the advanced-mode flag: the
    sort, and the whole of [generateMatches], are the same with the flag
    on or off.  Whatever the flag, of two active players with the same
    games-played count the one whose stored tier is the lower (beginner
    below intermediate below pro) is sorted first, and active players
    with the same count and the same stored tier keep the order they
    have in the roster.  What the flag does is make an accepted
    [addPlayer] store the neutral tier while it is off, and the selected
    tier while it is on. *)
Theorem pairing_ignores_advancedMode st :
  sortedPlayers (toggleAdvancedMode st) = sortedPlayers st
  /\ (forall now stamp,
        (generateMatches now stamp (toggleAdvancedMode st)).1
        = toggleAdvancedMode (generateMatches now stamp st).1)
  /\ (forall now,
        if truthy_string (trim (playerName st))
        then skill (deref (heap (addPlayer now st)) (length (heap st)))
             = (if advancedMode st then playerSkill st else intermediate)
        else addPlayer now st = st)
  /\ (forall g s,
        filter (sameKey (heap st) g s) (sortedPlayers st)
        = filter (sameKey (heap st) g s) (spec_active st))
  /\ (forall i j a b,
        sortedPlayers st !! i = Some a -> sortedPlayers st !! j = Some b ->
        gamesPlayed (deref (heap st) a) = gamesPlayed (deref (heap st) b) ->
        tierBelow (skill (deref (heap st) a)) (skill (deref (heap st) b)) ->
        (i < j)%nat).
Proof.
  split; [done|]. split; [|split; [|split]].
  - intros now stamp. unfold generateMatches.
    change (tooFewPlayers (toggleAdvancedMode st)) with (tooFewPlayers st).
    by destruct (tooFewPlayers st).
  - intros now. unfold addPlayer. destruct (truthy_string _); [|done].
    simpl. unfold deref. by rewrite list_lookup_total_middle.
  - intros g s. rewrite <- activePlayers_spec.
    unfold sortedPlayers. apply sort_stable.
    intros x y [Hxg Hxs] Hlt [Hyg Hys].
    rewrite comparePlayers_same_key in Hlt by congruence. lia.
  - intros i j a b Hi Hj Hg Hs.
    destruct (Nat.lt_trichotomy i j) as [Hij|[->|Hji]]; [done| |].
    + rewrite Hi in Hj. injection Hj as ->. inversion Hs; congruence.
    + apply (sortedPlayers_sorted st j i b a Hji Hj), playsBefore_spec in Hi.
      destruct Hi as [Hlt|[_ [Heq|Hb]]]; [lia| |].
      * rewrite Heq in Hs. inversion Hs; congruence.
      * destruct Hs; inversion Hb.
Qed.

(** ** Names and ids *)

Lemma trimStart_head s :
  trimStart s = []
  \/ exists c s', trimStart s = c :: s' /\ isWhiteSpace c = false.
Proof.
  induction s as [|c s IH]; simpl; [by left|].
  destruct (isWhiteSpace c) eqn:Hc; [done|]. right. by exists c, s.
Qed.

Lemma trimStart_nil s : trimStart s = [] <-> forallb isWhiteSpace s = true.
Proof.
  induction s as [|c s IH]; simpl; [done|].
  destruct (isWhiteSpace c); simpl; [done|]. split; discriminate.
Qed.

Lemma forallb_rev {A} (f : A -> bool) l : forallb f (rev l) = forallb f l.
Proof.
  induction l as [|x l IH]; simpl; [done|].
  rewrite forallb_app, IH. simpl. rewrite andb_true_r. apply andb_comm.
Qed.

(** A name is rejected exactly when it is empty or made of white space. *)
Lemma trim_nil s : trim s = [] <-> forallb isWhiteSpace s = true.
Proof.
  unfold trim, trimEnd. rewrite <- trimStart_nil.
  split.
  - intros H. apply (f_equal (@rev N)) in H. rewrite rev_involutive in H.
    simpl in H. apply trimStart_nil in H. rewrite forallb_rev in H.
    destruct (trimStart_head s) as [Hs|(c & s' & Hs & Hc)]; [done|].
    rewrite Hs in H. simpl in H. by rewrite Hc in H.
  - by intros ->.
Qed.

Lemma truthy_trim s :
  truthy_string (trim s) = negb (forallb isWhiteSpace s).
Proof.
  destruct (forallb isWhiteSpace s) eqn:Hs.
  - apply trim_nil in Hs. by rewrite Hs.
  - destruct (trim s) eqn:Ht; [|done].
    apply trim_nil in Ht. congruence.
Qed.

Lemma lit_inj s1 s2 : lit s1 = lit s2 -> s1 = s2.
Proof.
  unfold lit. intros H.
  rewrite <- (string_of_list_ascii_of_string s1),
          <- (string_of_list_ascii_of_string s2).
  f_equal. revert H.
  generalize (list_ascii_of_string s1) (list_ascii_of_string s2).
  induction l as [|a l IH]; intros [|b l']; simpl; intros H; simplify_eq; try done.
  f_equal; [|by apply IH].
  rewrite <- (Ascii.ascii_N_embedding a), <- (Ascii.ascii_N_embedding b).
  congruence.
Qed.

(** Different clock readings give different ids. *)
Lemma toString_inj a b : toString a = toString b -> a = b.
Proof.
  unfold toString. intros H%lit_inj.
  assert (forall z, Z.to_int z <> Decimal.Pos Decimal.Nil
                    /\ Z.to_int z <> Decimal.Neg Decimal.Nil) as Hnn.
  { intros z. destruct z as [|p|p]; simpl; split; try discriminate;
      intros [= Hp]; by apply (DecimalPos.Unsigned.to_uint_nonnil p). }
  apply DecimalZ.to_int_inj.
  assert (Some (Z.to_int a) = Some (Z.to_int b)) as [= ->]; [|done].
  rewrite <- (NilZero.isi (Z.to_int a)), <- (NilZero.isi (Z.to_int b))
    by apply Hnn.
  by rewrite H.
Qed.

Lemma rosterIds_addPlayer now st :
  roster_wf st ->
  truthy_string (trim (playerName st)) = true ->
  rosterIds (addPlayer now st) = rosterIds st ++ [toString now].
Proof.
  intros [_ Hlive] Hname. unfold rosterIds, addPlayer. rewrite Hname. simpl.
  rewrite fmap_app. simpl. f_equal.
  - apply list_fmap_ext. intros i l Hl. f_equal. apply deref_app.
    eapply (proj1 (Forall_lookup _ _) Hlive); eauto.
  - unfold deref. by rewrite list_lookup_total_middle.
Qed.

(** C8, as the claim has it, fails in the uniqueness of the id: the id
    is the text of the clock reading, and nothing compares it with the
    ids already in the roster.  Two players entered at the same reading
    of the clock get the same id. *)
Lemma addPlayer_id_not_unique :
  let st1 := addPlayer 1700000000000 exampleSession in
  let st2 := addPlayer 1700000000000 (setPlayerName (lit "Fay") st1) in
  length (players st2) = 6%nat
  /\ rosterIds st2 !! 4%nat = Some (lit "1700000000000")
  /\ rosterIds st2 !! 5%nat = Some (lit "1700000000000")
  /\ ~ NoDup (rosterIds st2).
Proof.
  split; [reflexivity|]. split; [vm_compute; reflexivity|].
  split; [vm_compute; reflexivity|].
  intros Hnd.
  assert (4 = 5)%nat; [|lia].
  eapply (NoDup_lookup _ _ _ _ Hnd); vm_compute; reflexivity.
Qed.

(** C8, amended.  [addPlayer] leaves the state alone when the name is
    empty or white space only.  For any other name the roster grows by
    exactly one reference, to a new record with the trimmed name, zero
    games played, not on leave, the neutral tier unless advanced mode is
    on (then the selected tier), and the text of the clock reading as id;
    the records of the other players are untouched.  The new id differs
    from every id in the roster that is the text of another clock
    reading, and the ids of the roster stay pairwise different exactly
    when they were so before and none of them is the new one. *)
Theorem addPlayer_spec now st :
  roster_wf st ->
  let st' := addPlayer now st in
  if forallb isWhiteSpace (playerName st)
  then st' = st
  else players st' = players st ++ [length (heap st)]
       /\ length (players st') = S (length (players st))
       /\ deref (heap st') (length (heap st))
          = {| player_id := toString now;
               name := trim (playerName st);
               skill := if advancedMode st then playerSkill st
                        else intermediate;
               gamesPlayed := 0;
               isOnLeave := false |}
       /\ (forall l, (l < length (heap st))%nat ->
             deref (heap st') l = deref (heap st) l)
       /\ (forall t, t <> now -> toString t <> toString now)
       /\ (NoDup (rosterIds st') <->
           NoDup (rosterIds st) /\ toString now ∉ rosterIds st).
Proof.
  intros Hwf st'. subst st'.
  pose proof (truthy_trim (playerName st)) as Ht.
  destruct (forallb isWhiteSpace (playerName st)); simpl in Ht.
  - unfold addPlayer. by rewrite Ht.
  - pose proof (rosterIds_addPlayer now st Hwf Ht) as Hids.
    unfold addPlayer in *. rewrite Ht in *. cbn [players heap].
    split; [done|]. split; [rewrite length_app; simpl; lia|].
    split; [unfold deref; by rewrite list_lookup_total_middle|].
    split; [intros l Hl; by apply deref_app|].
    split; [intros t Hne Heq; by apply toString_inj in Heq|].
    rewrite Hids, NoDup_app. split.
    + intros (Hnd & Hcross & _). split; [done|].
      intros Hin. apply (Hcross _ Hin). by apply list_elem_of_singleton.
    + intros [Hnd Hfresh]. split; [done|]. split.
      * intros x Hx ->%list_elem_of_singleton. done.
      * apply NoDup_singleton.
Qed.

Lemma addPlayer_spec_witness :
  players (addPlayer 1700000000000 exampleSession) = [0; 1; 2; 3; 4]%nat.
Proof.
  exact (proj1 (addPlayer_spec 1700000000000 exampleSession
                  exampleSession_wf)).
Defined.

(** ** The court count *)

(** C9 at the input [-3]: [parseInt] reads -3, which is truthy, so the
    fallback to 1 is not taken and the court count becomes -3. *)
Theorem changeCourts_negative st :
  parseInt (lit "-3") = Some (-3)
  /\ courts (changeCourts (lit "-3") st) = -3.
Proof. split; reflexivity. Qed.

(** What the fallback does achieve: the count is never zero, and it is
    at least 1 unless the text is a minus sign followed by a number
    other than zero. *)
Lemma courtsOfInput_nonzero v : courtsOfInput v <> 0.
Proof.
  unfold courtsOfInput. destruct (parseInt v) as [z|]; [|done].
  destruct (Z.eqb_spec z 0); [done|lia].
Qed.

Lemma parseDigits_nonneg R acc s :
  0 <= R -> 0 <= default 0 acc -> 0 <= default 0 (parseDigits R acc s).
Proof.
  intros HR. revert acc. induction s as [|c s IH]; intros acc Hacc; [done|].
  simpl. destruct (digitValue c) as [d|] eqn:Hd; [|done].
  destruct (Z.ltb_spec d R); [|done].
  apply IH. simpl.
  assert (0 <= d); [|nia].
  unfold digitValue in Hd.
  repeat match type of Hd with
         | (if ?b then _ else _) = _ => destruct b eqn:?
         end; simplify_eq;
    repeat match goal with
           | H : (_ && _) = true |- _ =>
               apply andb_true_iff in H as [?%N.leb_le ?%N.leb_le]
           end; lia.
Qed.

(** X16.  A text that does not begin, after white space, with a minus sign
    sets a court count of at least 1. *)
Lemma courtsOfInput_unsigned v :
  head (trimStart v) <> Some 45%N -> 1 <= courtsOfInput v.
Proof.
  intros Hsign. unfold courtsOfInput, parseInt.
  set (sign := match trimStart v with
               | c :: _ => if (c =? 45)%N then -1 else 1
               | [] => 1
               end).
  assert (sign = 1) as ->.
  { subst sign. destruct (trimStart v) as [|c s]; [done|].
    destruct (N.eqb_spec c 45) as [->|]; done. }
  match goal with
  | |- context [parseDigits ?R None ?d] =>
      pose proof (parseDigits_nonneg R None d) as Hd;
      destruct (parseDigits R None d) as [z|]
  end; simpl in *; [|lia].
  assert (0 <= z) by (apply Hd; [by destruct (match _ with [] => _ | _ => _ end)|lia]).
  destruct z; simpl; lia.
Qed.

(** ** Loading the persisted state *)


Lemma stateOfParsed_fields parsed r :
  stateOfParsed parsed = Some r ->
  exists ps hist revived rn cs pt am,
    getProp parsed (lit "players") = Some ps
    /\ getProp parsed (lit "history") = Some hist
    /\ reviveHistory hist = Some revived
    /\ getProp parsed (lit "roundNumber") = Some rn
    /\ getProp parsed (lit "courts") = Some cs
    /\ getProp parsed (lit "playingType") = Some pt
    /\ getProp parsed (lit "advancedMode") = Some am
    /\ r = {| saved_players := orElse ps (VArray []);
              saved_history := orElse revived (VArray []);
              saved_roundNumber := orElse rn (VNumber (Finite 1 1));
              saved_courts := orElse cs (VNumber (Finite 1 1));
              saved_playingType := orElse pt (VString (lit "double"));
              saved_advancedMode := orElse am (VBoolean false) |}.
Proof.
  unfold stateOfParsed. intros H.
  destruct (getProp parsed (lit "players")) as [ps|] eqn:Hps; [|done].
  destruct (getProp parsed (lit "history")) as [hist|] eqn:Hhist; [|done].
  simpl in H.
  destruct (reviveHistory hist) as [revived|] eqn:Hrev; [|done].
  destruct (getProp parsed (lit "roundNumber")) as [rn|] eqn:Hrn; [|done].
  destruct (getProp parsed (lit "courts")) as [cs|] eqn:Hcs; [|done].
  destruct (getProp parsed (lit "playingType")) as [pt|] eqn:Hpt; [|done].
  destruct (getProp parsed (lit "advancedMode")) as [am|] eqn:Ham; [|done].
  simpl in H. inversion H; subst.
  exists ps, hist, revived, rn, cs, pt, am. by repeat split.
Qed.

(** The cases of [loadState]: the fresh session, or the object built
    from a text that was read and parsed. *)
Lemma loadState_cases parse read :
  loadState parse read = defaultState
  \/ exists s parsed,
       read = Stored s /\ parse s = Some parsed
       /\ stateOfParsed parsed = Some (loadState parse read).
Proof.
  destruct read as [| |s]; simpl; try by left.
  destruct (truthy_string s); [|by left].
  destruct (parse s) as [parsed|] eqn:Hp; simpl; [|by left].
  destruct (stateOfParsed parsed) as [r|] eqn:Hr; simpl; [|by left].
  right. by exists s, parsed.
Qed.










(** A stored history of [null] does not cost the stored roster: the
    roster is loaded, beside an empty history. *)
Example loadState_null_history :
  let r := loadState (fun _ => Some nullHistoryValue) (Stored (lit "x")) in
  saved_players r
  = VArray [playerValue (mkPlayer (lit "1") (lit "A") beginner 0 false)]
  /\ saved_history r = VArray []
  /\ r <> defaultState.
Proof. vm_compute. repeat split. discriminate. Qed.

(** ** The roster invariant

    Every state the component can reach has a duplicate-free roster of
    live references: this is what the hypotheses [roster_wf] and
    [NoDup (players st)] of the theorems on [generateMatches] ask for. *)

Lemma mountSession_wf ps c t rn am : roster_wf (mountSession ps c t rn am).
Proof.
  split; simpl.
  - apply NoDup_seq.
  - apply Forall_forall. intros l Hl. apply elem_of_seq in Hl. lia.
Qed.

Lemma toggleStep_wf id (n0 : nat) (ps : list loc)
    (acc : list loc * list Player) :
  NoDup ps -> Forall (fun l => (l < n0)%nat) ps ->
  (n0 <= length acc.2)%nat ->
  NoDup acc.1 -> Forall (fun l => (l < length acc.2)%nat) acc.1 ->
  (forall x, x ∈ acc.1 -> x ∉ ps) ->
  let r := foldl (toggleStep id) acc ps in
  NoDup r.1 /\ Forall (fun l => (l < length r.2)%nat) r.1.
Proof.
  revert acc. induction ps as [|p ps IH];
    intros acc Hnd Hold Hn0 Hacc Hlive Hdisj; simpl; [done|].
  apply NoDup_cons in Hnd as [Hp Hnd].
  apply Forall_cons in Hold as [Hpn Hold].
  assert (p ∉ acc.1) as Hpacc.
  { intros Hin. apply (Hdisj p Hin). by left. }
  apply IH; try done.
  - unfold toggleStep. case_decide; simpl; [rewrite length_app; simpl|]; lia.
  - unfold toggleStep. case_decide; simpl.
    + apply NoDup_app. split; [done|]. split; [|apply NoDup_singleton].
      intros x Hx Hx'%list_elem_of_singleton. subst x.
      pose proof (proj1 (Forall_forall _ _) Hlive _ Hx). simpl in *. lia.
    + apply NoDup_app. split; [done|]. split; [|apply NoDup_singleton].
      intros x Hx Hx'%list_elem_of_singleton. subst x. done.
  - unfold toggleStep. case_decide; simpl.
    + rewrite length_app. simpl. apply Forall_app. split.
      * eapply Forall_impl; [exact Hlive|]. simpl. intros; lia.
      * apply Forall_singleton. lia.
    + apply Forall_app. split; [done|]. apply Forall_singleton. lia.
  - unfold toggleStep. case_decide; simpl; intros x Hx Hin.
    + apply elem_of_app in Hx as [Hx|Hx%list_elem_of_singleton]; [|subst x].
      * apply (Hdisj x Hx). by right.
      * pose proof (proj1 (Forall_forall _ _) Hold _ Hin). simpl in *. lia.
    + apply elem_of_app in Hx as [Hx|Hx%list_elem_of_singleton]; [|subst x].
      * apply (Hdisj x Hx). by right.
      * done.
Qed.

Lemma toggleLeave_wf id st : roster_wf st -> roster_wf (toggleLeave id st).
Proof.
  intros [Hnd Hlive].
  apply (toggleStep_wf id (length (heap st)) (players st) ([], heap st));
    simpl; try done.
  - apply NoDup_nil_2.
  - intros x Hx. by apply elem_of_nil in Hx.
Qed.

Lemma addPlayer_wf now st : roster_wf st -> roster_wf (addPlayer now st).
Proof.
  intros [Hnd Hlive]. unfold addPlayer.
  destruct (truthy_string _); [|done]. split; simpl.
  - apply NoDup_app. split; [done|]. split; [|apply NoDup_singleton].
    intros x Hx Hx'%list_elem_of_singleton. subst x.
    pose proof (proj1 (Forall_forall _ _) Hlive _ Hx). simpl in *. lia.
  - rewrite length_app. simpl. apply Forall_app. split.
    + eapply Forall_impl; [exact Hlive|]. simpl. intros; lia.
    + apply Forall_singleton. lia.
Qed.

Lemma removePlayer_wf id st : roster_wf st -> roster_wf (removePlayer id st).
Proof.
  intros [Hnd Hlive]. split; simpl.
  - by apply NoDup_filter.
  - apply Forall_forall. intros l [_ Hl]%list_elem_of_filter.
    by apply (proj1 (Forall_forall _ _) Hlive).
Qed.

Lemma generateMatches_wf now stamp st :
  roster_wf st -> roster_wf (generateMatches now stamp st).1.
Proof.
  intros [Hnd Hlive]. destruct (tooFewPlayers st) eqn:Hv.
  - by rewrite generateMatches_rejected.
  - rewrite generateMatches_accepted by done. split; simpl; [done|].
    by rewrite courtLoop_heap, incAll_length.
Qed.

(** Every action keeps the roster free of duplicates and its references
    live. *)
Lemma step_roster_wf st st' : roster_wf st -> step st st' -> roster_wf st'.
Proof.
  intros Hwf Hstep. destruct Hstep.
  - by apply addPlayer_wf.
  - by apply removePlayer_wf.
  - by apply toggleLeave_wf.
  - unfold endDay. destruct confirmed; [|done].
    split; simpl; [apply NoDup_nil_2|done].
  - by apply generateMatches_wf.
  - done.
  - done.
  - done.
  - done.
  - done.
Qed.

Lemma emptySession_wf : roster_wf emptySession.
Proof. split; simpl; [apply NoDup_nil_2|done]. Qed.

(** ** The scenario of the specification

    Roster A (0 games, beginner), B (0, intermediate), C (1, beginner),
    D (0, pro), doubles on one court: the order is A, B, D, C, the match
    is A and B against D and C, and the counters become 1, 1, 2, 1. *)
Example scenario_four_players :
  let st' := (generateMatches exampleClock 5 exampleSession).1 in
  sortedPlayers exampleSession = [0; 1; 3; 2]%nat
  /\ (team1 <$> currentMatches st') = [[0; 1]%nat]
  /\ (team2 <$> currentMatches st') = [[3; 2]%nat]
  /\ (gamesPlayed <$> heap st') = [1; 1; 2; 1]
  /\ roundNumber st' = 2.
Proof. vm_compute. repeat split. Qed.

(** A player on leave is not counted and not placed. *)
Example scenario_on_leave :
  let st := toggleLeave (lit "4") exampleSession in
  players st = [0; 1; 2; 4]%nat
  /\ activePlayers st = [0; 1; 2]%nat
  /\ generateMatches exampleClock 5 st = (st, Some (alertMessage double)).
Proof. vm_compute. repeat split. Qed.

(** With a negative court count the loop body never runs: the call
    passes validation, records an empty round and moves the counter. *)
Example scenario_negative_courts :
  let st := changeCourts (lit "-3") exampleSession in
  let st' := (generateMatches exampleClock 5 st).1 in
  courts st = -3 /\ currentMatches st' = [] /\ heap st' = heap st
  /\ length (history st') = 1%nat /\ roundNumber st' = 2.
Proof. vm_compute. repeat split. Qed.

(** ** The stored matches stay live *)

Lemma stored_live_mono st st' :
  storedMatches st' = storedMatches st ->
  (length (heap st) <= length (heap st'))%nat ->
  stored_live st -> stored_live st'.
Proof.
  unfold stored_live. intros -> Hlen Hlive.
  eapply Forall_impl; [exact Hlive|]. intros m Hm.
  eapply Forall_impl; [exact Hm|]. simpl. intros; lia.
Qed.

Lemma generateMatches_live now stamp st :
  roster_wf st -> stored_live st ->
  stored_live (generateMatches now stamp st).1.
Proof.
  intros [Hnd Hlive] Hstored. destruct (tooFewPlayers st) eqn:Hv.
  - by rewrite generateMatches_rejected.
  - rewrite generateMatches_accepted by done.
    unfold stored_live, storedMatches in *. simpl.
    rewrite courtLoop_heap, incAll_length.
    apply Forall_app in Hstored as [_ Hhist].
    assert (Forall
              (fun m => Forall (fun l => (l < length (heap st))%nat)
                               (playersOf m))
              (courtLoop now st).1) as Hnew.
    { apply Forall_forall. intros m Hm. apply Forall_forall. intros l Hl.
      apply (proj1 (Forall_forall _ _) Hlive).
      assert (l ∈ placedPlayers (courtLoop now st).1) as Hp.
      { apply list_elem_of_join. exists (playersOf m). split; [done|].
        by apply list_elem_of_fmap_2. }
      rewrite courtLoop_placed in Hp.
      apply elem_of_take in Hp as (i & Hi & _).
      apply sortedPlayers_roster. by eapply list_elem_of_lookup_2. }
    repeat (apply Forall_app; split); done.
Qed.

(** Every action keeps both invariants: the roster is free of duplicates
    and live, and so is every reference held by a stored match. *)
Lemma step_session_wf st st' :
  roster_wf st /\ stored_live st -> step st st' ->
  roster_wf st' /\ stored_live st'.
Proof.
  intros [Hwf Hlive] Hstep.
  split; [by eapply step_roster_wf|].
  destruct Hstep.
  - destruct (addPlayer_heap now st) as [extra Hh].
    apply (stored_live_mono st); [| |exact Hlive].
    + unfold addPlayer. by destruct (truthy_string _).
    + rewrite Hh, length_app. lia.
  - done.
  - destruct (toggleLeave_heap id st) as [extra Hh].
    apply (stored_live_mono st); [done| |exact Hlive].
    rewrite Hh, length_app. lia.
  - unfold endDay. destruct confirmed; [|done]. by constructor.
  - by apply generateMatches_live.
  - done.
  - done.
  - done.
  - done.
  - done.
Qed.

Lemma emptySession_live : stored_live emptySession.
Proof. by constructor. Qed.

(** * Further properties of the component *)

(** ** removePlayer *)

Lemma filter_fmap_comm {A B} (f : A -> B) (P : B -> Prop)
    `{!forall y, Decision (P y)} (l : list A) :
  filter P (f <$> l) = f <$> filter (fun x => P (f x)) l.
Proof.
  induction l as [|x l IH]; [done|].
  rewrite fmap_cons, !filter_cons. simpl.
  destruct (decide (P (f x))); by rewrite IH.
Qed.

Lemma filter_all {A} (P : A -> Prop) `{!forall y, Decision (P y)} (l : list A) :
  Forall P l -> filter P l = l.
Proof.
  induction 1 as [|x l Hx _ IH]; [done|].
  by rewrite filter_cons_True, IH.
Qed.

Lemma roster_filter_gone id h (ps : list loc) :
  id ∉ ((fun l => player_id (deref h l))
          <$> filter (fun p => player_id (deref h p) <> id) ps).
Proof.
  intros (l & Hid & Hl)%list_elem_of_fmap.
  apply list_elem_of_filter in Hl as [Hne _]. done.
Qed.

Lemma roster_filter_noop id h (ps : list loc) :
  id ∉ ((fun l => player_id (deref h l)) <$> ps) ->
  filter (fun p => player_id (deref h p) <> id) ps = ps.
Proof.
  intros Hid. apply filter_all, Forall_forall. intros l Hl Heq. apply Hid.
  apply list_elem_of_fmap. by exists l.
Qed.

(** X1.  [removePlayer] drops from the roster exactly the players with the
    given id, all of them if several share it, keeps the others in their
    order, and touches no record. *)
Theorem removePlayer_roster id st :
  rosterRecords (removePlayer id st)
  = filter (fun p => player_id p <> id) (rosterRecords st)
  /\ rosterIds (removePlayer id st)
     = filter (fun i => i <> id) (rosterIds st)
  /\ (id ∉ rosterIds (removePlayer id st))
  /\ heap (removePlayer id st) = heap st.
Proof.
  unfold rosterRecords, rosterIds, removePlayer. simpl.
  rewrite !filter_fmap_comm. repeat split. apply roster_filter_gone.
Qed.

(** X2.  Removing an id that no player of the roster has changes nothing. *)
Theorem removePlayer_absent id st :
  id ∉ rosterIds st -> removePlayer id st = st.
Proof.
  intros Hid. unfold removePlayer.
  rewrite roster_filter_noop by done. by destruct st.
Qed.

Lemma removePlayer_absent_witness :
  removePlayer (lit "9") exampleSession = exampleSession.
Proof.
  apply (removePlayer_absent (lit "9") exampleSession). compute_done.
Defined.

(** X3.  Removing the same id a second time changes nothing more. *)
Theorem removePlayer_idempotent id st :
  removePlayer id (removePlayer id st) = removePlayer id st.
Proof.
  unfold removePlayer at 1. cbn [heap players removePlayer].
  rewrite roster_filter_noop by apply roster_filter_gone.
  reflexivity.
Qed.

(** ** toggleLeave *)

Lemma deref_fresh h x : deref (h ++ [x]) (length h) = x.
Proof. unfold deref. by rewrite list_lookup_total_middle. Qed.

Lemma toggleStep_match id (acc : list loc * list Player) p :
  player_id (deref acc.2 p) = id ->
  toggleStep id acc p
  = (acc.1 ++ [length acc.2], acc.2 ++ [flipLeave (deref acc.2 p)]).
Proof. intros H. unfold toggleStep. by rewrite decide_True. Qed.

Lemma toggleStep_other id (acc : list loc * list Player) p :
  player_id (deref acc.2 p) <> id -> toggleStep id acc p = (acc.1 ++ [p], acc.2).
Proof. intros H. unfold toggleStep. by rewrite decide_False. Qed.

Lemma toggleStep_records id (ps : list loc) (acc : list loc * list Player) :
  Forall (fun l => (l < length acc.2)%nat) acc.1 ->
  Forall (fun l => (l < length acc.2)%nat) ps ->
  deref (foldl (toggleStep id) acc ps).2 <$> (foldl (toggleStep id) acc ps).1
  = (deref acc.2 <$> acc.1) ++ (toggleRecord id <$> (deref acc.2 <$> ps)).
Proof.
  revert acc. induction ps as [|p ps IH]; intros acc Hacc Hps.
  - cbn [foldl fmap list_fmap]. by rewrite app_nil_r.
  - apply Forall_cons in Hps as [Hp Hps].
    assert (forall extra (ls : list loc),
              Forall (fun l => (l < length acc.2)%nat) ls ->
              deref (acc.2 ++ extra) <$> ls = deref acc.2 <$> ls) as Hsame.
    { intros extra ls Hls. apply list_fmap_ext. intros i l Hl.
      apply deref_app. eapply (proj1 (Forall_lookup _ _) Hls); eauto. }
    cbn [foldl]. rewrite !fmap_cons.
    destruct (decide (player_id (deref acc.2 p) = id)) as [Hid|Hid].
    + rewrite toggleStep_match by done. rewrite IH; cbn [fst snd].
      * rewrite fmap_app, (Hsame _ acc.1), (Hsame _ ps) by done.
        cbn [fmap list_fmap]. rewrite deref_fresh.
        unfold toggleRecord at 2. rewrite decide_True by done.
        by rewrite <- app_assoc.
      * rewrite length_app. apply Forall_app. split.
        -- eapply Forall_impl; [exact Hacc|]. simpl. intros; lia.
        -- apply Forall_singleton. simpl. lia.
      * rewrite length_app. eapply Forall_impl; [exact Hps|].
        simpl. intros; lia.
    + rewrite toggleStep_other by done. rewrite IH; cbn [fst snd].
      * rewrite fmap_app. cbn [fmap list_fmap].
        unfold toggleRecord at 2. rewrite decide_False by done.
        by rewrite <- app_assoc.
      * apply Forall_app. split; [done|]. by apply Forall_singleton.
      * done.
Qed.

Lemma toggleStep_noop id (ps : list loc) (acc : list loc * list Player) :
  Forall (fun l => player_id (deref acc.2 l) <> id) ps ->
  foldl (toggleStep id) acc ps = (acc.1 ++ ps, acc.2).
Proof.
  revert acc. induction ps as [|p ps IH]; intros [ls h] Hps; simpl.
  - by rewrite app_nil_r.
  - apply Forall_cons in Hps as [Hp Hps]. simpl in *.
    rewrite toggleStep_other by done.
    rewrite IH by done. simpl. by rewrite <- app_assoc.
Qed.


Lemma toggleLeave_rosterRecords id st :
  roster_wf st ->
  rosterRecords (toggleLeave id st) = toggleRecord id <$> rosterRecords st.
Proof.
  intros [_ Hlive]. unfold rosterRecords, toggleLeave. cbn [heap players].
  by rewrite (toggleStep_records id (players st) ([], heap st)).
Qed.



(** X5.  Toggling an id that no player of the roster has changes nothing. *)
Theorem toggleLeave_absent id st :
  id ∉ rosterIds st -> toggleLeave id st = st.
Proof.
  intros Hid. unfold toggleLeave.
  rewrite toggleStep_noop; [by destruct st|].
  apply Forall_forall. intros l Hl Heq. apply Hid.
  apply list_elem_of_fmap. by exists l.
Qed.

Lemma toggleLeave_absent_witness :
  toggleLeave (lit "9") exampleSession = exampleSession.
Proof.
  apply (toggleLeave_absent (lit "9") exampleSession). compute_done.
Defined.

Lemma toggleRecord_twice id p : toggleRecord id (toggleRecord id p) = p.
Proof.
  unfold toggleRecord. destruct p as [i n s g o]. simpl.
  destruct (decide (i = id)) as [Hid|Hid]; simpl.
  - rewrite decide_True by done. unfold flipLeave. simpl.
    by rewrite negb_involutive.
  - by rewrite decide_False.
Qed.

(** X6.  Toggling the same id twice gives every player of the roster the
    record it had. *)
Theorem toggleLeave_twice id st :
  roster_wf st ->
  rosterRecords (toggleLeave id (toggleLeave id st)) = rosterRecords st.
Proof.
  intros Hwf.
  rewrite !toggleLeave_rosterRecords by auto using toggleLeave_wf.
  rewrite <- list_fmap_compose.
  transitivity ((fun p => p) <$> rosterRecords st); [|apply list_fmap_id].
  apply list_fmap_ext. intros i p _. apply toggleRecord_twice.
Qed.

Lemma toggleLeave_twice_witness :
  rosterRecords (toggleLeave (lit "2") (toggleLeave (lit "2") exampleSession))
  = exampleHeap.
Proof.
  exact (toggleLeave_twice (lit "2") exampleSession exampleSession_wf).
Defined.

(** ** addPlayer and removePlayer together *)

(** X7.  A player added under an id that the roster did not hold is taken out
    again by [removePlayer] with that id: the roster is the one from
    before. *)
Theorem addPlayer_removePlayer now st :
  roster_wf st ->
  toString now ∉ rosterIds st ->
  players (removePlayer (toString now) (addPlayer now st)) = players st.
Proof.
  intros [_ Hlive] Hfresh. unfold addPlayer.
  destruct (truthy_string (trim (playerName st))).
  - cbn [removePlayer players heap]. rewrite filter_app.
    rewrite filter_cons_False, filter_nil, app_nil_r
      by (rewrite deref_fresh; simpl; tauto).
    apply filter_all, Forall_forall. intros l Hl.
    rewrite deref_app by by apply (proj1 (Forall_forall _ _) Hlive).
    intros Heq. apply Hfresh, list_elem_of_fmap. by exists l.
  - cbn [removePlayer players]. by apply roster_filter_noop.
Qed.

Lemma addPlayer_removePlayer_witness :
  players (removePlayer (toString 77) (addPlayer 77 exampleSession))
  = [0; 1; 2; 3]%nat.
Proof.
  apply (addPlayer_removePlayer 77 exampleSession exampleSession_wf).
  compute_done.
Defined.

(** ** Who is placed by generateMatches *)

Lemma courtLoop_placed_sorted now st l :
  l ∈ placedPlayers (courtLoop now st).1 ->
  exists i,
    sortedPlayers st !! i = Some l
    /\ (i < matchCount st * Z.to_nat (playersPerMatch (playingType st)))%nat.
Proof. rewrite courtLoop_placed. apply elem_of_take. Qed.

Lemma sortedPlayers_active st l : l ∈ sortedPlayers st <-> l ∈ activePlayers st.
Proof. by rewrite sortedPlayers_perm. Qed.

(** X9.  Only active players of the roster are placed: a player on leave is
    in no match of the round, and a call, accepted or not, leaves the
    record of every player on leave as it was. *)
Theorem generateMatches_skips_on_leave now stamp st :
  tooFewPlayers st = false ->
  let st' := (generateMatches now stamp st).1 in
  (forall l, l ∈ placedPlayers (currentMatches st') ->
     l ∈ players st /\ isOnLeave (deref (heap st) l) = false)
  /\ (forall l, isOnLeave (deref (heap st) l) = true ->
        deref (heap st') l = deref (heap st) l).
Proof.
  intros Hok st'. subst st'.
  rewrite generateMatches_accepted by done. cbn [fst currentMatches heap].
  assert (forall l, l ∈ placedPlayers (courtLoop now st).1 ->
            l ∈ players st /\ isOnLeave (deref (heap st) l) = false) as Hact.
  { intros l (i & Hi & _)%courtLoop_placed_sorted.
    apply list_elem_of_lookup_2, sortedPlayers_active in Hi.
    apply list_elem_of_filter in Hi. tauto. }
  split; [done|].
  intros l Hleave. rewrite courtLoop_heap. apply incAll_other.
  intros Hl. apply Hact in Hl as [_ Hl]. congruence.
Qed.

Lemma generateMatches_skips_on_leave_witness :
  3%nat ∈ players exampleSession
  /\ isOnLeave (deref exampleHeap 3%nat) = false.
Proof.
  refine (proj1 (generateMatches_skips_on_leave exampleClock 5
                   exampleSession _) 3%nat _).
  - reflexivity.
  - compute_done.
Defined.

Lemma placed_before_unplaced now st a b :
  a ∈ placedPlayers (courtLoop now st).1 ->
  b ∈ activePlayers st ->
  b ∉ placedPlayers (courtLoop now st).1 ->
  playsBefore (deref (heap st) a) (deref (heap st) b).
Proof.
  intros (i & Hi & Hlt)%courtLoop_placed_sorted Hb Hout.
  apply sortedPlayers_active, list_elem_of_lookup_1 in Hb as [j Hj].
  apply (sortedPlayers_sorted st i j); [|done..].
  destruct (decide (i < j)%nat) as [|Hge]; [done|].
  exfalso. apply Hout. rewrite courtLoop_placed.
  apply elem_of_take. exists j. split; [done|lia].
Qed.

(** X10.  The round goes to those who played least: an active player who is
    left out never comes before a placed player in the order of games
    played and skill tier. *)
Theorem generateMatches_least_played_first now stamp st :
  tooFewPlayers st = false ->
  let st' := (generateMatches now stamp st).1 in
  forall a b,
    a ∈ placedPlayers (currentMatches st') ->
    b ∈ activePlayers st ->
    b ∉ placedPlayers (currentMatches st') ->
    playsBefore (deref (heap st) a) (deref (heap st) b).
Proof.
  intros Hok st' a b. subst st'.
  rewrite generateMatches_accepted by done. cbn [fst currentMatches].
  apply placed_before_unplaced.
Qed.

(** One court of singles over the four example players: A and B are
    placed, C and D are left out. *)
Lemma generateMatches_least_played_first_witness :
  playsBefore (deref exampleHeap 0%nat) (deref exampleHeap 2%nat).
Proof.
  refine (generateMatches_least_played_first exampleClock 5
            (setPlayingType single exampleSession) _ 0%nat 2%nat _ _ _).
  - reflexivity.
  - vm_compute. constructor.
  - compute_done.
  - vm_compute. intros H. inversion H as [|? ? ? H']; subst.
    inversion H'; subst. inversion H2.
Defined.

Lemma courtLoop_length now st :
  length (courtLoop now st).1 = matchCount st.
Proof. rewrite courtLoop_spec. cbn [fst]. by rewrite length_fmap, length_seq. Qed.

(** X11.  The matches of a round are numbered by court from 1 upward without
    a gap, never beyond the number of courts, and all carry the round
    number the call started with. *)
Theorem generateMatches_courts now stamp st :
  tooFewPlayers st = false ->
  let ms := currentMatches (generateMatches now stamp st).1 in
  (court <$> ms) = seqZ 1 (Z.of_nat (length ms))
  /\ Forall (fun m => 1 <= court m <= courts st /\ round m = roundNumber st) ms.
Proof.
  intros Hok ms. subst ms.
  rewrite generateMatches_accepted by done. cbn [fst currentMatches].
  rewrite courtLoop_length, courtLoop_spec. cbn [fst]. split.
  - rewrite <- list_fmap_compose. unfold seqZ. rewrite Nat2Z.id.
    apply list_fmap_ext. intros j i _. simpl. lia.
  - apply Forall_fmap, Forall_forall. intros i Hi%elem_of_seq. simpl.
    unfold matchCount in Hi. lia.
Qed.

(** Two courts of singles over the four example players. *)
Lemma generateMatches_courts_witness :
  (court <$> currentMatches
     (generateMatches exampleClock 5
        (changeCourts (lit "2") (setPlayingType single exampleSession))).1)
  = [1; 2].
Proof.
  refine (eq_trans
    (proj1 (generateMatches_courts exampleClock 5
              (changeCourts (lit "2") (setPlayingType single exampleSession))
              _)) _); reflexivity.
Defined.

(** X12.  With at least as many courts as full groups, fewer players than one
    match needs are active and left out. *)
Theorem generateMatches_left_out now stamp st :
  tooFewPlayers st = false ->
  Z.of_nat (length (activePlayers st)) / playersPerMatch (playingType st)
  <= courts st ->
  let placed :=
    placedPlayers (currentMatches (generateMatches now stamp st).1) in
  0 <= Z.of_nat (length (activePlayers st)) - Z.of_nat (length placed)
    < playersPerMatch (playingType st).
Proof.
  intros Hok Hcourts placed. subst placed.
  rewrite generateMatches_accepted by done. cbn [fst currentMatches].
  rewrite courtLoop_placed.
  pose proof (matchCount_bound st) as Hbound.
  rewrite length_take_le by done.
  rewrite sortedPlayers_length in Hbound. unfold matchCount in *.
  pose proof (playersPerMatch_pos (playingType st)) as HK.
  revert Hcourts Hbound.
  generalize (Z.of_nat (length (activePlayers st))) (Zle_0_nat (length (activePlayers st))).
  generalize (playersPerMatch (playingType st)) HK. clear.
  intros K HK N HN Hcourts _.
  rewrite Z.min_r by done.
  assert (0 <= N / K) by (apply Z.div_pos; lia).
  rewrite Nat2Z.inj_mul, !Z2Nat.id by lia.
  pose proof (Z.mod_pos_bound N K HK). pose proof (Z.div_mod N K). lia.
Qed.

Lemma generateMatches_left_out_witness :
  0 <= 4 - Z.of_nat (length (placedPlayers (currentMatches exampleRound1)))
    < 4.
Proof.
  apply (generateMatches_left_out exampleClock 5 exampleSession).
  - reflexivity.
  - vm_compute. discriminate.
Defined.

(** ** Numbers as text *)

Lemma lit_cons a s : lit (String a s) = Ascii.N_of_ascii a :: lit s.
Proof. reflexivity. Qed.

Lemma string_of_uint_digits d :
  Forall (fun c => isDigit c = true) (lit (NilEmpty.string_of_uint d)).
Proof.
  induction d; cbn [NilEmpty.string_of_uint]; rewrite ?lit_cons;
    by constructor.
Qed.

Lemma string_of_uint_nonnil d :
  d <> Decimal.Nil -> lit (NilEmpty.string_of_uint d) <> [].
Proof. by destruct d. Qed.

Lemma isDigit_range c : isDigit c = true <-> (48 <= c <= 57)%N.
Proof. unfold isDigit. rewrite andb_true_iff, !N.leb_le. tauto. Qed.

Lemma isDigit_not_space c : isDigit c = true -> isWhiteSpace c = false.
Proof.
  intros Hc%isDigit_range. unfold isWhiteSpace.
  repeat match goal with
         | |- context [(c =? ?k)%N] =>
             rewrite (proj2 (N.eqb_neq c k)) by lia
         end.
  rewrite (proj2 (N.leb_gt 8192 c)) by lia. reflexivity.
Qed.

(** The text of a number: digits, after a minus sign when negative. *)
Lemma toString_shape z :
  exists ds,
    ds <> [] /\ Forall (fun c => isDigit c = true) ds
    /\ toString z = (if z <? 0 then 45%N :: ds else ds)
    /\ parseDigits 10 None ds = Some (Z.abs z).
Proof.
  assert (forall d acc,
            parseDigits 10 (Some (Z.pos acc)) (lit (NilEmpty.string_of_uint d))
            = Some (Z.pos (Pos.of_uint_acc d acc))) as Hacc.
  { induction d as [|d IH|d IH|d IH|d IH|d IH|d IH|d IH|d IH|d IH|d IH];
      intros acc; cbn [NilEmpty.string_of_uint Pos.of_uint_acc];
      rewrite ?lit_cons; [done|..];
      cbn [parseDigits]; rewrite <- IH; simpl; do 2 f_equal; lia. }
  assert (forall d,
            parseDigits 10 (Some 0) (lit (NilEmpty.string_of_uint d))
            = Some (Z.of_N (Pos.of_uint d))) as Hzero.
  { induction d as [|d IH|d IH|d IH|d IH|d IH|d IH|d IH|d IH|d IH|d IH];
      cbn [NilEmpty.string_of_uint Pos.of_uint];
      rewrite ?lit_cons; [done|exact IH|..];
      cbn [parseDigits]; simpl; apply Hacc. }
  assert (forall p,
            parseDigits 10 None (lit (NilEmpty.string_of_uint (Pos.to_uint p)))
            = Some (Z.pos p)) as Hpos.
  { intros p. pose proof (DecimalPos.Unsigned.to_uint_nonnil p) as Hnn.
    pose proof (DecimalPos.Unsigned.of_to p) as Hof.
    specialize (Hzero (Pos.to_uint p)). rewrite Hof in Hzero.
    destruct (Pos.to_uint p); [done|exact Hzero..]. }
  assert (forall p, NilZero.string_of_uint (Pos.to_uint p)
                    = NilEmpty.string_of_uint (Pos.to_uint p)) as Hnz.
  { intros p. pose proof (DecimalPos.Unsigned.to_uint_nonnil p).
    by destruct (Pos.to_uint p). }
  destruct z as [|p|p].
  - exists (lit "0"). by repeat split; [repeat constructor..].
  - exists (lit (NilEmpty.string_of_uint (Pos.to_uint p))).
    split; [apply string_of_uint_nonnil,
              DecimalPos.Unsigned.to_uint_nonnil|].
    split; [apply string_of_uint_digits|]. split; [|apply Hpos].
    unfold toString. simpl. by rewrite Hnz.
  - exists (lit (NilEmpty.string_of_uint (Pos.to_uint p))).
    split; [apply string_of_uint_nonnil,
              DecimalPos.Unsigned.to_uint_nonnil|].
    split; [apply string_of_uint_digits|]. split; [|apply Hpos].
    unfold toString. simpl. by rewrite Hnz.
Qed.

Lemma isDigit_neq c k :
  isDigit c = true -> (k < 48 \/ 57 < k)%N -> (c =? k)%N = false.
Proof. intros Hc%isDigit_range Hk. apply N.eqb_neq. lia. Qed.

Lemma parseInt_digits ds :
  ds <> [] -> Forall (fun c => isDigit c = true) ds ->
  parseInt ds = parseDigits 10 None ds
  /\ parseInt (45%N :: ds) = Z.opp <$> parseDigits 10 None ds.
Proof.
  intros Hne Hds. destruct ds as [|c rest]; [done|].
  apply Forall_cons in Hds as [Hc Hrest].
  assert ((c =? 45)%N = false /\ (c =? 43)%N = false) as [H45 H43]
    by (split; apply isDigit_neq; (done || lia)).
  assert (match rest with
          | x :: _ => ((c =? 48) && ((x =? 120) || (x =? 88)))%N
          | [] => false
          end = false) as Hhex.
  { destruct rest as [|x rest']; [done|].
    apply Forall_cons in Hrest as [Hx _].
    rewrite (isDigit_neq x 120), (isDigit_neq x 88) by (done || lia).
    apply andb_false_r. }
  split.
  - unfold parseInt. cbn [trimStart]. rewrite (isDigit_not_space c Hc).
    rewrite H45, H43. cbn [orb]. rewrite Hhex.
    destruct (parseDigits 10 None (c :: rest)) as [z|]; [|done].
    simpl; f_equal; lia.
  - unfold parseInt. cbn [trimStart].
    change (isWhiteSpace 45) with false. cbn [N.eqb Pos.eqb orb].
    rewrite Hhex.
    destruct (parseDigits 10 None (c :: rest)) as [z|]; [|done].
    simpl; f_equal; lia.
Qed.

(** X15.  The court-count field shows the count as text and reads it back
    with [parseInt].  For a whole number that a JavaScript number holds
    exactly (between -2^53 and 2^53, both excluded), the text of the
    number is read as that number, so a count other than 0 survives the
    way through the field unchanged, and 0 comes back as 1. *)
Theorem parseInt_toString z :
  - 2 ^ 53 < z < 2 ^ 53 ->
  parseInt (toString z) = Some z
  /\ courtsOfInput (toString z) = (if z =? 0 then 1 else z).
Proof.
  intros _.
  assert (parseInt (toString z) = Some z) as Hparse.
  { destruct (toString_shape z) as (ds & Hne & Hds & Hz & Hval).
    destruct (parseInt_digits ds Hne Hds) as [Hpos Hneg].
    rewrite Hz. destruct (Z.ltb_spec z 0).
    - rewrite Hneg, Hval. simpl; f_equal; lia.
    - rewrite Hpos, Hval; f_equal; lia. }
  split; [done|]. unfold courtsOfInput. by rewrite Hparse.
Qed.

Lemma parseInt_toString_witness :
  parseInt (toString (-3)) = Some (-3)
  /\ courtsOfInput (toString (-3)) = -3.
Proof. apply (parseInt_toString (-3)). lia. Defined.

Lemma courtsOfInput_unsigned_witness : 1 <= courtsOfInput (lit " 12px").
Proof. apply (courtsOfInput_unsigned (lit " 12px")). vm_compute. discriminate. Defined.

Lemma toString_no_dash z : 0 <= z -> 45%N ∉ toString z.
Proof.
  intros Hz. destruct (toString_shape z) as (ds & _ & Hds & -> & _).
  rewrite (proj2 (Z.ltb_ge z 0)) by done.
  intros Hin. apply (proj1 (Forall_forall _ _) Hds) in Hin. done.
Qed.

(** X13.  The matches of one round have pairwise different ids, whatever the
    clock shows while they are made: the id ends in the court index. *)
Theorem generateMatches_match_ids now stamp st :
  tooFewPlayers st = false ->
  NoDup (match_id <$> currentMatches (generateMatches now stamp st).1).
Proof.
  intros Hok. rewrite generateMatches_accepted by done.
  cbn [fst currentMatches]. rewrite courtLoop_spec. cbn [fst].
  rewrite <- list_fmap_compose. apply NoDup_alt.
  intros i j x Hi Hj.
  apply list_lookup_fmap_Some in Hi as (i' & -> & Hi).
  apply list_lookup_fmap_Some in Hj as (j' & Hx & Hj).
  apply lookup_seq in Hi as [-> _]. apply lookup_seq in Hj as [-> _].
  simpl in Hx.
  apply not_elem_of_app_cons_inv_r in Hx as (_ & _ & Hx);
    [|apply toString_no_dash; lia..].
  apply toString_inj in Hx. lia.
Qed.

Lemma generateMatches_match_ids_witness :
  NoDup (match_id <$> currentMatches
    (generateMatches (fun _ => 7) 5
       (changeCourts (lit "2") (setPlayingType single exampleSession))).1).
Proof.
  apply (generateMatches_match_ids (fun _ => 7) 5
           (changeCourts (lit "2") (setPlayingType single exampleSession))).
  reflexivity.
Defined.

(** ** Trimmed names *)

Lemma trimStart_split s :
  exists pre, s = pre ++ trimStart s /\ forallb isWhiteSpace pre = true.
Proof.
  induction s as [|c s (pre & Hs & Hpre)]; simpl.
  - by exists [].
  - destruct (isWhiteSpace c) eqn:Hc.
    + exists (c :: pre). simpl. rewrite Hc, Hpre. split; [by f_equal|done].
    + by exists [].
Qed.

Lemma trimStart_fixed s :
  match s with c :: _ => isWhiteSpace c = false | [] => True end ->
  trimStart s = s.
Proof. destruct s as [|c s]; simpl; [done|]. by intros ->. Qed.

Lemma trimStart_idemp s : trimStart (trimStart s) = trimStart s.
Proof.
  apply trimStart_fixed.
  destruct (trimStart_head s) as [->|(c & s' & -> & Hc)]; done.
Qed.

(** [trim] removes white space from the two ends and nothing else: the
    text is what was cut off in front, the result, and what was cut off
    behind, and the result has no white space left at either end. *)
Lemma trim_split s :
  exists pre post,
    s = pre ++ trim s ++ post
    /\ forallb isWhiteSpace pre = true /\ forallb isWhiteSpace post = true
    /\ trimStart (trim s) = trim s /\ trimEnd (trim s) = trim s.
Proof.
  destruct (trimStart_split s) as (pre & Hs & Hpre).
  destruct (trimStart_split (rev (trimStart s))) as (q & Hq & Hqws).
  assert (trimStart s = trim s ++ rev q) as Ht.
  { unfold trim, trimEnd. rewrite <- rev_app_distr, <- Hq.
    by rewrite rev_involutive. }
  exists pre, (rev q). split; [by rewrite <- Ht|].
  split; [done|]. split; [by rewrite forallb_rev|]. split.
  - apply trimStart_fixed.
    destruct (trimStart_head s) as [Hnil|(c & s' & Hcs & Hc)].
    + rewrite Hnil in Ht. symmetry in Ht.
      apply app_eq_nil in Ht as [-> _]. done.
    + rewrite Hcs in Ht. destruct (trim s) as [|c' t]; [done|].
      simpl in Ht. by simplify_eq.
  - unfold trim, trimEnd. by rewrite rev_involutive, trimStart_idemp.
Qed.

Lemma trim_idemp s : trim (trim s) = trim s.
Proof.
  destruct (trim_split s) as (_ & _ & _ & _ & _ & Hstart & Hend).
  unfold trim at 1. by rewrite Hstart, Hend.
Qed.

(** ** What an action does to the records of the roster *)

Lemma rosterRecords_addPlayer now st :
  roster_wf st ->
  truthy_string (trim (playerName st)) = true ->
  rosterRecords (addPlayer now st)
  = rosterRecords st
    ++ [ {| player_id := toString now;
            name := trim (playerName st);
            skill := if advancedMode st then playerSkill st else intermediate;
            gamesPlayed := 0;
            isOnLeave := false |} ].
Proof.
  intros [_ Hlive] Hname. unfold rosterRecords, addPlayer. rewrite Hname.
  cbn [heap players]. rewrite fmap_app. cbn [fmap list_fmap].
  rewrite deref_fresh. f_equal.
  apply list_fmap_ext. intros i l Hl. apply deref_app.
  eapply (proj1 (Forall_lookup _ _) Hlive); eauto.
Qed.

Lemma placed_NoDup now st :
  NoDup (players st) -> NoDup (placedPlayers (courtLoop now st).1).
Proof.
  intros Hnd. rewrite courtLoop_placed.
  eapply sublist_NoDup; [|apply sublist_take]. by apply sortedPlayers_NoDup.
Qed.

Lemma placed_roster now st l :
  l ∈ placedPlayers (courtLoop now st).1 -> l ∈ players st.
Proof.
  intros (i & Hi & _)%courtLoop_placed_sorted.
  apply sortedPlayers_roster. by eapply list_elem_of_lookup_2.
Qed.

(** After any action every player of the roster is either a player from
    before, under the same name and with the same count of games or, if a
    round was generated, possibly one more, or a newly added player with
    no games and a trimmed name that is not empty. *)
Lemma step_records st st' :
  roster_wf st -> step st st' ->
  Forall (fun p' =>
            (exists p, p ∈ rosterRecords st /\ name p' = name p
                       /\ roundNumber st <= roundNumber st'
                       /\ (gamesPlayed p' = gamesPlayed p
                           \/ (gamesPlayed p' = gamesPlayed p + 1
                               /\ roundNumber st' = roundNumber st + 1)))
            \/ (gamesPlayed p' = 0 /\ name p' <> []
                /\ trim (name p') = name p'
                /\ roundNumber st' = roundNumber st))
         (rosterRecords st').
Proof.
  intros Hwf Hstep.
  assert (forall st0 : State,
            rosterRecords st0 = rosterRecords st ->
            roundNumber st0 = roundNumber st ->
            Forall (fun p' =>
              (exists p, p ∈ rosterRecords st /\ name p' = name p
                         /\ roundNumber st <= roundNumber st0
                         /\ (gamesPlayed p' = gamesPlayed p
                             \/ (gamesPlayed p' = gamesPlayed p + 1
                                 /\ roundNumber st0 = roundNumber st + 1)))
              \/ (gamesPlayed p' = 0 /\ name p' <> []
                  /\ trim (name p') = name p'
                  /\ roundNumber st0 = roundNumber st))
              (rosterRecords st0)) as Hsame.
  { intros st0 -> Hrn. apply Forall_forall. intros p Hp. left.
    exists p. repeat split; try done; try lia; by left. }
  destruct Hstep.
  - destruct (truthy_string (trim (playerName st))) eqn:Hname.
    + rewrite rosterRecords_addPlayer by done.
      apply Forall_app. split.
      * apply Forall_forall. intros p Hp. left. exists p.
        unfold addPlayer. rewrite Hname. simpl.
        repeat split; try done; try lia; by left.
      * apply Forall_singleton. right. unfold addPlayer. rewrite Hname.
        simpl. split; [done|]. split; [by destruct (trim (playerName st))|].
        split; [apply trim_idemp|done].
    + apply Hsame; unfold addPlayer; by rewrite Hname.
  - apply Forall_forall. intros p Hp. left. exists p.
    unfold rosterRecords, removePlayer in *. simpl in *.
    apply list_elem_of_fmap in Hp as (l & -> & Hl).
    apply list_elem_of_filter in Hl as [_ Hl].
    split; [by apply list_elem_of_fmap_2|].
    split; [done|]. split; [lia|by left].
  - rewrite toggleLeave_rosterRecords by done.
    apply Forall_fmap, Forall_forall. intros p Hp. left. exists p. simpl.
    unfold toggleRecord. case_decide; repeat split; try done; try lia;
      by left.
  - destruct confirmed; [by constructor|by apply Hsame].
  - destruct (tooFewPlayers st) eqn:Hv.
    + rewrite generateMatches_rejected by done. by apply Hsame.
    + rewrite generateMatches_accepted by done.
      unfold rosterRecords. cbn [fst heap players roundNumber].
      rewrite courtLoop_heap.
      apply Forall_fmap, Forall_forall. intros l Hl. left. simpl.
      exists (deref (heap st) l).
      destruct (incAll_fields (heap st)
                  (placedPlayers (courtLoop now st).1) l)
        as (_ & Hn & _ & _).
      split; [by apply list_elem_of_fmap_2|]. split; [done|].
      split; [lia|].
      destruct (decide (l ∈ placedPlayers (courtLoop now st).1)) as [Hin|Hout].
      * right. split; [|done]. rewrite incAll_member; [done| |done|].
        -- apply placed_NoDup, Hwf.
        -- by apply (proj1 (Forall_forall _ _) (proj2 Hwf)).
      * left. by rewrite incAll_other.
  - by apply Hsame.
  - by apply Hsame.
  - by apply Hsame.
  - by apply Hsame.
  - by apply Hsame.
Qed.

(** ** Invariants of the sessions reached from a first start *)

Lemma reachable_wf st : reachable st -> roster_wf st /\ stored_live st.
Proof.
  induction 1 as [|st st' _ IH Hstep|st _ IH].
  - split; [apply emptySession_wf|apply emptySession_live].
  - by eapply step_session_wf.
  - exact IH.
Qed.

Lemma courtLoop_rounds now st :
  Forall (fun m => round m = roundNumber st) (courtLoop now st).1.
Proof.
  rewrite courtLoop_spec. cbn [fst]. apply Forall_fmap, Forall_forall.
  by intros i _.
Qed.

(** X17.  The round counter is one more than the number of history entries,
    and the entries carry the numbers below it in falling order, newest
    first, each equal to the round number of all its matches. *)
Theorem reachable_rounds st :
  reachable st ->
  roundNumber st = Z.of_nat (length (history st)) + 1
  /\ forall i e,
       history st !! i = Some e ->
       history_round e = roundNumber st - 1 - Z.of_nat i
       /\ Forall (fun m => round m = history_round e) (matches e).
Proof.
  induction 1 as [|st st' _ [IHn IHe] Hstep|st _ IH]; [| |exact IH].
  - split; [done|]. intros i e Hi. simpl in Hi. by rewrite lookup_nil in Hi.
  - destruct Hstep; try done.
    + unfold addPlayer. by destruct (truthy_string _).
    + destruct confirmed; [|done]. split; [done|].
      intros i e Hi. simpl in Hi. by rewrite lookup_nil in Hi.
    + destruct (tooFewPlayers st) eqn:Hv.
      * by rewrite generateMatches_rejected.
      * rewrite generateMatches_accepted by done.
        cbn [fst history roundNumber]. split; [simpl; lia|].
        intros [|i] e Hi; simpl in Hi.
        -- inversion Hi; subst. simpl.
           split; [lia|apply courtLoop_rounds].
        -- destruct (IHe i e Hi) as [Hr Hm]. split; [lia|done].
Qed.

Lemma exampleReached_reachable : reachable exampleReached.
Proof.
  unfold exampleReached, exampleTwo.
  eapply reachable_step; [|apply step_generateMatches].
  eapply reachable_step; [|apply step_setPlayingType].
  eapply reachable_step; [|apply step_addPlayer].
  eapply reachable_step; [|apply step_setPlayerName].
  eapply reachable_step; [|apply step_addPlayer].
  eapply reachable_step; [|apply step_setPlayerName].
  apply reachable_start.
Qed.

Lemma reachable_rounds_witness : roundNumber exampleReached = 1 + 1.
Proof.
  exact (proj1 (reachable_rounds exampleReached exampleReached_reachable)).
Defined.

(** X18.  The matches on show are those of the newest history entry, and they
    all belong to the round before the counter: the heading "Round
    [roundNumber - 1]" over the current matches is their round. *)
Theorem reachable_current st :
  reachable st ->
  Forall (fun m => round m = roundNumber st - 1) (currentMatches st)
  /\ (currentMatches st = []
      \/ exists e rest, history st = e :: rest
                        /\ matches e = currentMatches st).
Proof.
  induction 1 as [|st st' _ [IHr IHh] Hstep|st _ IH]; [| |exact IH].
  - split; [by constructor|by left].
  - destruct Hstep; try done.
    + unfold addPlayer. by destruct (truthy_string _).
    + destruct confirmed; [|done]. split; [by constructor|by left].
    + destruct (tooFewPlayers st) eqn:Hv.
      * by rewrite generateMatches_rejected.
      * rewrite generateMatches_accepted by done.
        cbn [fst currentMatches history roundNumber]. split.
        -- eapply Forall_impl; [apply courtLoop_rounds|].
           simpl. intros m ->. lia.
        -- right. by eexists _, _.
Qed.

Lemma reachable_current_witness :
  Forall (fun m => round m = roundNumber exampleReached - 1)
         (currentMatches exampleReached).
Proof.
  exact (proj1 (reachable_current exampleReached exampleReached_reachable)).
Defined.

Lemma step_round_positive st st' :
  step st st' -> 1 <= roundNumber st -> 1 <= roundNumber st'.
Proof.
  intros Hstep Hrn. destruct Hstep; try done.
  - unfold addPlayer. by destruct (truthy_string _).
  - by destruct confirmed.
  - unfold generateMatches. destruct (tooFewPlayers st); simpl; lia.
Qed.

(** X19.  No player of the roster has played more games than rounds were
    generated, nor fewer than none. *)
Theorem reachable_games st :
  reachable st ->
  1 <= roundNumber st
  /\ Forall (fun p => 0 <= gamesPlayed p <= roundNumber st - 1)
            (rosterRecords st).
Proof.
  induction 1 as [|st st' Hreach [IHr IHg] Hstep|st _ IH]; [| |exact IH].
  - split; [done|by constructor].
  - split; [by eapply step_round_positive|].
    pose proof (step_records st st' (proj1 (reachable_wf st Hreach)) Hstep)
      as Hrec.
    eapply Forall_impl; [exact Hrec|]. simpl.
    intros p' [(p & Hp & _ & Hle & Hg)|(Hg & _ & _ & Hrn)]; [|lia].
    pose proof (proj1 (Forall_forall _ _) IHg p Hp) as Hb. simpl in Hb.
    destruct Hg as [->|[-> ->]]; lia.
Qed.

Lemma reachable_games_witness :
  Forall (fun p => 0 <= gamesPlayed p <= roundNumber exampleReached - 1)
         (rosterRecords exampleReached).
Proof.
  exact (proj2 (reachable_games exampleReached exampleReached_reachable)).
Defined.

(** X20.  Every player of the roster has a name that is not empty and has no
    white space at its ends. *)
Theorem reachable_names st :
  reachable st ->
  Forall (fun p => name p <> [] /\ trim (name p) = name p) (rosterRecords st).
Proof.
  induction 1 as [|st st' Hreach IH Hstep|st _ IH]; [| |exact IH].
  - by constructor.
  - pose proof (step_records st st' (proj1 (reachable_wf st Hreach)) Hstep)
      as Hrec.
    eapply Forall_impl; [exact Hrec|]. simpl.
    intros p' [(p & Hp & -> & _)|(_ & Hne & Htrim & _)]; [|done].
    by apply (proj1 (Forall_forall _ _) IH p Hp).
Qed.

Lemma reachable_names_witness :
  (name <$> rosterRecords exampleReached) = [lit "Ann"; lit "Bob"]
  /\ Forall (fun p => name p <> [] /\ trim (name p) = name p)
            (rosterRecords exampleReached).
Proof.
  split; [reflexivity|].
  exact (reachable_names exampleReached exampleReached_reachable).
Defined.

Lemma makeMatch_shape now t rn i g :
  0 <= i -> Z.of_nat (length g) = playersPerMatch t -> NoDup g ->
  matchShape (makeMatch now t rn i g).
Proof.
  intros Hi Hlen Hnd. unfold matchShape.
  rewrite makeMatch_players by done.
  split; [simpl; lia|]. split; [by destruct t|].
  split; [destruct t; simpl; auto|done].
Qed.

Lemma courtLoop_shape now st :
  NoDup (players st) -> Forall matchShape (courtLoop now st).1.
Proof.
  intros Hnd. rewrite courtLoop_spec. cbn [fst].
  apply Forall_fmap, Forall_forall. intros i Hi%elem_of_seq. simpl.
  pose proof (matchCount_bound st).
  pose proof (playersPerMatch_pos (playingType st)).
  apply makeMatch_shape; [lia| |].
  - rewrite courtGroup_length by nia. lia.
  - unfold courtGroup.
    eapply sublist_NoDup; [|apply sublist_take].
    eapply sublist_NoDup; [|apply sublist_drop].
    by apply sortedPlayers_NoDup.
Qed.

(** X21.  Every match the session holds, current or in the history, has a
    court number from 1 up and two teams of the same size, one against
    one or two against two, with no player in it twice. *)
Theorem reachable_matches st :
  reachable st -> Forall matchShape (storedMatches st).
Proof.
  induction 1 as [|st st' Hreach IH Hstep|st _ IH]; [| |exact IH].
  - by constructor.
  - destruct Hstep; try done.
    + unfold addPlayer. by destruct (truthy_string _).
    + destruct confirmed; [by constructor|done].
    + destruct (tooFewPlayers st) eqn:Hv.
      * by rewrite generateMatches_rejected.
      * rewrite generateMatches_accepted by done.
        unfold storedMatches in *. cbn [fst currentMatches history].
        apply Forall_app in IH as [_ IH].
        pose proof (courtLoop_shape now st
                      (proj1 (proj1 (reachable_wf st Hreach)))) as Hnew.
        simpl. repeat (apply Forall_app; split); done.
Qed.

Lemma reachable_matches_witness :
  Forall matchShape (storedMatches exampleReached).
Proof.
  exact (reachable_matches exampleReached exampleReached_reachable).
Defined.

(** ** Saving and loading *)

(** Settles the comparisons of property names that are given as
    literals. *)
Ltac decide_keys :=
  repeat match goal with
         | |- context [decide (?a = ?b)] =>
             destruct (decide (a = b)) as [Hk|Hk];
             [ try (exfalso; vm_compute in Hk; discriminate Hk)
             | try (exfalso; apply Hk; reflexivity) ];
             clear Hk
         end.

Lemma reviveEntry_entryValue h ts e :
  dateThrows ts = false ->
  reviveEntry (entryValue h ts e) = Some (entryValue h (VDate ts) e).
Proof.
  intros Hts. unfold reviveEntry, entryValue, getProp.
  cbn [lookupProp spread setProp]. decide_keys.
  cbn [default mbind option_bind]. unfold id. by rewrite Hts.
Qed.

Lemma reviveHistory_saved toISO h (es : list MatchHistory) :
  mapM reviveEntry
    ((fun e => entryValue h (VString (toISO (timestamp e))) e) <$> es)
  = Some ((fun e => entryValue h (VDate (VString (toISO (timestamp e)))) e)
            <$> es).
Proof.
  induction es as [|e es IH]; [done|].
  rewrite !fmap_cons. cbn [mapM].
  rewrite reviveEntry_entryValue by done. simpl. by rewrite IH.
Qed.

Lemma savedValue_fields toISO st :
  getProp (savedValue toISO st) (lit "players")
  = Some (VArray (playerValue <$> rosterRecords st))
  /\ getProp (savedValue toISO st) (lit "history")
     = Some (VArray ((fun e => entryValue (heap st)
                                (VString (toISO (timestamp e))) e)
                       <$> history st))
  /\ getProp (savedValue toISO st) (lit "roundNumber")
     = Some (integer (roundNumber st))
  /\ getProp (savedValue toISO st) (lit "courts") = Some (integer (courts st))
  /\ getProp (savedValue toISO st) (lit "playingType")
     = Some (VString (playingTypeName (playingType st)))
  /\ getProp (savedValue toISO st) (lit "advancedMode")
     = Some (VBoolean (advancedMode st)).
Proof.
  unfold savedValue, getProp. cbn [lookupProp].
  repeat split; decide_keys; reflexivity.
Qed.

(** Loading what was saved, for any session: only a round counter or a
    court count of 0 is not kept, it comes back as 1. *)
Lemma loadState_savedValue parse toISO text st :
  text <> [] ->
  parse text = Some (savedValue toISO st) ->
  loadState parse (Stored text)
  = {| saved_players := saved_players (sessionImage toISO st);
       saved_history := saved_history (sessionImage toISO st);
       saved_roundNumber :=
         integer (if roundNumber st =? 0 then 1 else roundNumber st);
       saved_courts := integer (if courts st =? 0 then 1 else courts st);
       saved_playingType := saved_playingType (sessionImage toISO st);
       saved_advancedMode := saved_advancedMode (sessionImage toISO st) |}.
Proof.
  intros Htext Hparse. unfold loadState.
  destruct text as [|c text]; [done|]. cbn [truthy_string].
  rewrite Hparse. cbn [mbind option_bind].
  destruct (savedValue_fields toISO st)
    as (Hps & Hhist & Hrn & Hcs & Hpt & Ham).
  unfold stateOfParsed. rewrite Hps, Hhist, Hrn, Hcs, Hpt, Ham.
  cbn [mbind option_bind reviveHistory]. rewrite reviveHistory_saved.
  cbn [fmap option_fmap option_map mbind option_bind default].
  unfold orElse, sessionImage, integer. cbn [truthy saved_players
    saved_history saved_playingType saved_advancedMode].
  assert (truthy_string (playingTypeName (playingType st)) = true) as ->
    by by destruct (playingType st).
  unfold id. f_equal.
  - by destruct (roundNumber st =? 0).
  - by destruct (courts st =? 0).
  - by destruct (advancedMode st).
Qed.

Lemma reachable_courts st : reachable st -> courts st <> 0.
Proof.
  induction 1 as [|st st' _ IH Hstep|st _ IH]; [done| |exact IH].
  destruct Hstep; try done.
  - unfold addPlayer. by destruct (truthy_string _).
  - by destruct confirmed.
  - unfold generateMatches. by destruct (tooFewPlayers st).
  - apply courtsOfInput_nonzero.
Qed.

(** X22.  Saving and loading give the session back.  For a session reached
    from a first start, when the stored text is read back as the value
    that was saved, [loadState] returns the roster with every record,
    the history with every match, the round counter, the court count,
    the format and the advanced mode of that session; each timestamp is
    a date again, made from its text. *)
Theorem reachable_reload parse toISO text st :
  reachable st ->
  text <> [] ->
  parse text = Some (savedValue toISO st) ->
  loadState parse (Stored text) = sessionImage toISO st.
Proof.
  intros Hreach Htext Hparse.
  rewrite (loadState_savedValue parse toISO text st Htext Hparse).
  pose proof (reachable_courts st Hreach) as Hc.
  assert (1 <= roundNumber st) as Hrn.
  { clear Htext Hparse Hc. induction Hreach as [|st st' _ IH Hstep|st _ IH]; [done| |exact IH].
    by eapply step_round_positive. }
  rewrite (proj2 (Z.eqb_neq (roundNumber st) 0)) by lia.
  rewrite (proj2 (Z.eqb_neq (courts st) 0)) by done.
  reflexivity.
Qed.

Lemma reachable_reload_witness :
  loadState (parseOnly (lit "saved") (savedValue exampleISO exampleReached))
            (Stored (lit "saved"))
  = sessionImage exampleISO exampleReached.
Proof.
  apply (reachable_reload _ exampleISO (lit "saved") exampleReached).
  - apply exampleReached_reachable.
  - discriminate.
  - reflexivity.
Defined.

(** A confirmed [endDay] leaves in the hooks exactly what [loadState]
    returns when nothing is stored: the reset and the fresh start agree
    on every persisted field. *)
Theorem endDay_fresh parse toISO st :
  sessionImage toISO (endDay true st) = loadState parse Missing.
Proof. reflexivity. Qed.

(** ** More on loadState *)

Lemma orElse_truthy v d : truthy d = true -> truthy (orElse v d) = true.
Proof. intros Hd. unfold orElse. by destruct (truthy v) eqn:Hv. Qed.

(** X23.  Whatever is stored, the loader hands the hooks no missing or falsy
    roster, round counter, court count or format: each is truthy, so
    never [undefined], [null], 0, [NaN] or the empty text, and the
    advanced-mode flag is truthy or the boolean [false]. *)
Theorem loadState_no_falsy parse read :
  let r := loadState parse read in
  truthy (saved_players r) = true
  /\ truthy (saved_roundNumber r) = true
  /\ truthy (saved_courts r) = true
  /\ truthy (saved_playingType r) = true
  /\ (truthy (saved_advancedMode r) = true
      \/ saved_advancedMode r = VBoolean false).
Proof.
  intros r. subst r.
  destruct (loadState_cases parse read) as [->|(s & parsed & _ & _ & Hr)].
  - vm_compute. repeat split. by right.
  - apply stateOfParsed_fields in Hr
      as (ps & hist & revived & rn & cs & pt & am
          & _ & _ & _ & _ & _ & _ & _ & ->).
    cbn [saved_players saved_roundNumber saved_courts saved_playingType
         saved_advancedMode].
    repeat split; try by apply orElse_truthy.
    unfold orElse. destruct (truthy am) eqn:Ham; [by left|by right].
Qed.

Lemma lookupProp_setProp key v props :
  lookupProp key (setProp key v props) = Some v.
Proof.
  induction props as [|[k w] props IH]; simpl.
  - by rewrite decide_True.
  - destruct (decide (k = key)) as [->|Hne]; simpl.
    + by rewrite decide_True.
    + by rewrite decide_False.
Qed.

Lemma lookupProp_setProp_ne key key' v props :
  key' <> key -> lookupProp key' (setProp key v props) = lookupProp key' props.
Proof.
  intros Hne. induction props as [|[k w] props IH]; simpl.
  - by rewrite decide_False.
  - destruct (decide (k = key)) as [->|Hk]; simpl.
    + by rewrite !decide_False by done.
    + destruct (decide (k = key')); [done|exact IH].
Qed.

Lemma reviveEntry_Some h v :
  reviveEntry h = Some v ->
  exists props ts,
    v = VObject props
    /\ lookupProp (lit "timestamp") props = Some (VDate ts)
    /\ forall key, key <> lit "timestamp" ->
                   lookupProp key props = lookupProp key (spread h).
Proof.
  unfold reviveEntry. destruct (getProp h (lit "timestamp")) as [ts|]; [|done].
  simpl. destruct (dateThrows ts); [done|]. intros [= <-].
  eexists _, ts. split; [done|]. split.
  - apply lookupProp_setProp.
  - intros key Hkey. by apply lookupProp_setProp_ne.
Qed.

Lemma mapM_reviveEntry_dates l k :
  mapM reviveEntry l = Some k ->
  Forall (fun v => exists props ts,
            v = VObject props
            /\ lookupProp (lit "timestamp") props = Some (VDate ts)) k.
Proof.
  intros Hk%mapM_Some_1. induction Hk as [|x y l k Hxy _ IH]; constructor.
  - apply reviveEntry_Some in Hxy as (props & ts & -> & Hts & _).
    by exists props, ts.
  - exact IH.
Qed.

(** X24.  Every entry of the loaded history is an object whose [timestamp] is
    a [Date], and there are as many entries as were stored. *)
Theorem loadState_history_dates parse read elems :
  saved_history (loadState parse read) = VArray elems ->
  Forall (fun v => exists props ts,
            v = VObject props
            /\ lookupProp (lit "timestamp") props = Some (VDate ts)) elems
  /\ (loadState parse read = defaultState
      \/ exists s parsed hist,
           read = Stored s /\ parse s = Some parsed
           /\ getProp parsed (lit "history") = Some hist
           /\ match hist with
              | VArray stored => length elems = length stored
              | _ => elems = []
              end).
Proof.
  intros Hh.
  destruct (loadState_cases parse read) as [Hd|(s & parsed & -> & Hp & Hr)].
  - rewrite Hd in Hh. inversion Hh; subst. split; [by constructor|by left].
  - apply stateOfParsed_fields in Hr
      as (ps & hist & revived & rn & cs & pt & am
          & _ & Hhist & Hrev & _ & _ & _ & _ & Hr).
    rewrite Hr in Hh. cbn [saved_history] in Hh.
    assert (Forall (fun v => exists props ts,
                      v = VObject props
                      /\ lookupProp (lit "timestamp") props = Some (VDate ts))
                   elems
            /\ match hist with
               | VArray stored => length elems = length stored
               | _ => elems = []
               end) as [Hall Hlen].
    { destruct hist; simpl in Hrev; try done.
      - inversion Hrev; subst. inversion Hh; subst. by split.
      - inversion Hrev; subst. inversion Hh; subst. by split.
      - destruct (mapM reviveEntry elems0) as [k|] eqn:Hk; [|done].
        simpl in Hrev. inversion Hrev; subst. inversion Hh; subst.
        split; [by eapply mapM_reviveEntry_dates|].
        symmetry. by eapply length_mapM. }
    split; [done|]. right. by exists s, parsed, hist.
Qed.

Lemma loadState_history_dates_witness :
  Forall (fun v => exists props ts,
            v = VObject props
            /\ lookupProp (lit "timestamp") props = Some (VDate ts))
         ((fun e => entryValue (heap exampleReached)
                      (VDate (VString (exampleISO (timestamp e)))) e)
            <$> history exampleReached).
Proof.
  refine (proj1 (loadState_history_dates
    (parseOnly (lit "saved") (savedValue exampleISO exampleReached))
    (Stored (lit "saved")) _ _)).
  vm_compute. reflexivity.
Defined.

(** X25.  One bad part of the stored history costs the whole stored session:
    when the stored history is neither missing nor [null] nor an array,
    or is an array with a [null] entry, the loader returns the fresh
    session and the stored roster is not loaded either. *)
Theorem loadState_history_rejected parse s parsed hist :
  parse s = Some parsed ->
  getProp parsed (lit "history") = Some hist ->
  match hist with
  | VUndefined | VNull => False
  | VArray stored => VNull ∈ stored
  | _ => True
  end ->
  loadState parse (Stored s) = defaultState.
Proof.
  intros Hp Hhist Hbad. unfold loadState.
  destruct (truthy_string s); [|done]. rewrite Hp. cbn [mbind option_bind].
  assert (reviveHistory hist = None) as Hrev.
  { destruct hist; try done. simpl.
    destruct (mapM reviveEntry elems) as [k|] eqn:Hk; [|done].
    exfalso. assert (is_Some (mapM reviveEntry elems)) as Hs by by eexists.
    apply mapM_is_Some in Hs.
    apply (proj1 (Forall_forall _ _) Hs) in Hbad. by destruct Hbad. }
  unfold stateOfParsed.
  destruct (getProp parsed (lit "players")); [|done].
  rewrite Hhist. cbn [mbind option_bind]. by rewrite Hrev.
Qed.

Lemma loadState_history_rejected_witness :
  loadState (parseOnly (lit "stored") nullEntryValue) (Stored (lit "stored"))
  = defaultState.
Proof.
  apply (loadState_history_rejected _ (lit "stored") nullEntryValue
           (VArray [VNull])).
  - reflexivity.
  - reflexivity.
  - by left.
Defined.

(** ** Balance across rounds *)

Lemma courtLoop_games now st l :
  roster_wf st ->
  gamesPlayed (deref (courtLoop now st).2 l)
  = gamesPlayed (deref (heap st) l)
    + (if decide (l ∈ placedPlayers (courtLoop now st).1) then 1 else 0).
Proof.
  intros [Hnd Hlive]. rewrite courtLoop_heap. case_decide as Hl.
  - rewrite incAll_member; [done|by apply placed_NoDup|done|].
    apply (proj1 (Forall_forall _ _) Hlive). by eapply placed_roster.
  - rewrite incAll_other by done. lia.
Qed.

(** X14.  A round keeps the active players level: if before the call no
    active player has played more than one game more than another, the
    same holds after it, and the same players are active. *)
Theorem generateMatches_balance now stamp st :
  roster_wf st ->
  (forall a b, a ∈ activePlayers st -> b ∈ activePlayers st ->
     gamesPlayed (deref (heap st) a) <= gamesPlayed (deref (heap st) b) + 1) ->
  let st' := (generateMatches now stamp st).1 in
  activePlayers st' = activePlayers st
  /\ forall a b, a ∈ activePlayers st' -> b ∈ activePlayers st' ->
       gamesPlayed (deref (heap st') a) <= gamesPlayed (deref (heap st') b) + 1.
Proof.
  intros Hwf Hbal st'. subst st'.
  destruct (tooFewPlayers st) eqn:Hv.
  { rewrite generateMatches_rejected by done. by split. }
  rewrite generateMatches_accepted by done. cbn [fst].
  assert (activePlayers
            {| heap := (courtLoop now st).2; players := players st;
               playerName := playerName st; playerSkill := playerSkill st;
               courts := courts st; playingType := playingType st;
               currentMatches := (courtLoop now st).1;
               history := mkMatchHistory (roundNumber st)
                            (courtLoop now st).1 stamp :: history st;
               roundNumber := roundNumber st + 1;
               showHistory := showHistory st;
               advancedMode := advancedMode st |}
          = activePlayers st) as Hact.
  { unfold activePlayers. cbn [heap players]. apply list_filter_iff.
    intros l. rewrite courtLoop_heap.
    destruct (incAll_fields (heap st)
                (placedPlayers (courtLoop now st).1) l) as (_ & _ & _ & ->).
    done. }
  split; [done|]. rewrite Hact. cbn [heap].
  intros a b Ha Hb. rewrite !courtLoop_games by done.
  pose proof (Hbal a b Ha Hb) as Hab.
  destruct (decide (a ∈ placedPlayers (courtLoop now st).1)) as [Hpa|Hpa];
    destruct (decide (b ∈ placedPlayers (courtLoop now st).1)) as [Hpb|Hpb];
    try lia.
  pose proof (placed_before_unplaced now st a b Hpa Hb Hpb) as Hlt.
  unfold playsBefore in Hlt. lia.
Qed.

Lemma generateMatches_balance_witness :
  activePlayers (generateMatches exampleClock 5 exampleTwo).1
  = activePlayers exampleTwo.
Proof.
  refine (proj1 (generateMatches_balance exampleClock 5 exampleTwo _ _)).
  - split; [compute_done|]. vm_compute. repeat constructor.
  - intros a b Ha Hb.
    assert (forall l, l ∈ activePlayers exampleTwo ->
              gamesPlayed (deref (heap exampleTwo) l) = 0) as H0.
    { intros l Hl. vm_compute in Hl.
      inversion Hl as [|? ? ? Hl']; subst; [reflexivity|].
      inversion Hl' as [|? ? ? Hl'']; subst; [reflexivity|].
      inversion Hl''. }
    rewrite (H0 a Ha), (H0 b Hb). lia.
Defined.

(** ** The name of a new player *)

(** X8.  The name stored for a new player is the typed text without the
    white space at its two ends: nothing else is cut, the stored name
    has no white space left at either end, and the name field is
    emptied. *)
Theorem addPlayer_name now st :
  truthy_string (trim (playerName st)) = true ->
  let p := deref (heap (addPlayer now st)) (length (heap st)) in
  (exists pre post,
     playerName st = pre ++ name p ++ post
     /\ forallb isWhiteSpace pre = true /\ forallb isWhiteSpace post = true)
  /\ name p <> []
  /\ trimStart (name p) = name p /\ trimEnd (name p) = name p
  /\ playerName (addPlayer now st) = [].
Proof.
  intros Hname p. subst p. unfold addPlayer. rewrite Hname.
  cbn [heap playerName]. rewrite deref_fresh. cbn [name].
  destruct (trim_split (playerName st))
    as (pre & post & Hs & Hpre & Hpost & Hstart & Hend).
  split; [by exists pre, post|].
  split; [by destruct (trim (playerName st))|done].
Qed.

Lemma addPlayer_name_witness :
  name (deref (heap (addPlayer 77 exampleSession)) 4%nat) <> [].
Proof.
  refine (proj1 (proj2 (addPlayer_name 77 exampleSession _))).
  reflexivity.
Defined.
